(** * Hexendrum renderer: playback queue, transport and event handling

    A shallow embedding of [src/renderer/contexts/AudioContext.js]: the
    reducer store ([audioReducer] over [initialState]), the transport and
    queue callbacks of [AudioProvider] and the WebSocket event handlers,
    followed by the helpers of the views that drive the provider (playback
    bar, player, queue panel, library and playlists pages).

    Conventions of the embedding.
    - A JavaScript number that is used as an array index is a [Z]; every
      other number (volume, progress, duration, a [Math.random] draw) is an
      exact rational [Q].  Exact arithmetic agrees with the binary64
      arithmetic of the engine on whole numbers below [2 ^ 53]; a theorem
      that states an exact sum, difference or quotient is stated for such
      values, and the others state only orderings and bounds that rounding
      preserves.
    - [undefined] and [null] of an optional value are [None].
    - A callback is a function of the store it closes over; the calls it
      makes to [window.electronAPI] are summarised by their outcome
      ([ElectronCall], [LibraryLoad]).  Toasts ([notifyError]) and console
      output live outside the store and are not part of [AudioState].
    - A callback is the function from the store it is called on to the
      store left when all its dispatches are done.  What its caller
      dispatches while a bridge call is still pending is modelled apart
      ([playTrack_then]); whole runs of callbacks are composed only for a
      window without the bridge ([run_locals]), where no dispatch
      follows an [await].  The one-second progress timer is modelled by
      its firings, and the socket reconnection, being timed behaviour,
      stays outside the model. *)

From Stdlib Require Import ZArith QArith Qround Qminmax List String Ascii Bool Lia Lqa.
From Stdlib Require Import DecimalString.
Import ListNotations.
Open Scope string_scope.
Open Scope Z_scope.

(** ** Values coming from [JSON.parse] *)

#[warnings="-register-all"]
Inductive json : Type :=
| JNull
| JBool (b : bool)
| JNum (q : Q)
| JStr (s : string)
| JArr (items : list json)
| JObj (fields : list (string * json)).

(** JavaScript truthiness of a parsed value; an absent property
    ([undefined]) is falsy. *)
Definition truthy (v : json) : bool :=
  match v with
  | JNull => false
  | JBool b => b
  | JNum q => negb (Qeq_bool q 0)
  | JStr s => negb (s =? "")%string
  | JArr _ => true
  | JObj _ => true
  end.

(** Own-property read [obj.key] on the property list of a parsed object. *)
Fixpoint get_field (key : string) (fields : list (string * json)) : option json :=
  match fields with
  | [] => None
  | (k, v) :: rest => if (k =? key)%string then Some v else get_field key rest
  end.

(** The rest pattern [{ type, ...payload }]: every property but [key]. *)
Fixpoint without_field (key : string) (fields : list (string * json))
  : list (string * json) :=
  match fields with
  | [] => []
  | (k, v) :: rest =>
      if (k =? key)%string then without_field key rest
      else (k, v) :: without_field key rest
  end.

(** [a || b || null] on two optional properties: the first truthy one,
    otherwise [null]. *)
Definition first_truthy (a b : option json) : json :=
  match a with
  | Some x => if truthy x then x
              else match b with
                   | Some y => if truthy y then y else JNull
                   | None => JNull
                   end
  | None => match b with
            | Some y => if truthy y then y else JNull
            | None => JNull
            end
  end.

(** [String.prototype.toLowerCase] on the ASCII letters. *)
Definition lower_ascii (c : ascii) : ascii :=
  let n := nat_of_ascii c in
  if ((65 <=? n)%nat && (n <=? 90)%nat)%bool then ascii_of_nat (n + 32) else c.

Fixpoint toLowerCase (s : string) : string :=
  match s with
  | EmptyString => EmptyString
  | String c rest => String (lower_ascii c) (toLowerCase rest)
  end.

Section StringConversion.

(** [Number.prototype.toString], the decimal rendering of a double, is
    left abstract. *)
Variable Number_toString : Q -> string.

(** [String(v)] for a parsed value: arrays are joined with commas, with
    [null] elements rendered empty. *)
Fixpoint js_String (v : json) : string :=
  match v with
  | JNull => "null"
  | JBool true => "true"
  | JBool false => "false"
  | JNum q => Number_toString q
  | JStr s => s
  | JArr items =>
      (fix join (l : list json) : string :=
         match l with
         | [] => ""
         | x :: rest =>
             let here := match x with JNull => "" | _ => js_String x end in
             match rest with
             | [] => here
             | _ :: _ => here ++ "," ++ join rest
             end
         end) items
  | JObj _ => "[object Object]"
  end.

(** [String(payload.key || '').toLowerCase()]. *)
Definition lowered_field (key : string) (payload : list (string * json)) : string :=
  match get_field key payload with
  | Some v => if truthy v then toLowerCase (js_String v) else ""
  | None => ""
  end.

End StringConversion.

(** ** The store *)

Record Track : Type := mkTrack {
  id : string;
  path : string;
  duration : option Q
}.

Record Playlist : Type := mkPlaylist {
  playlist_id : string;
  name : string;
  description : string;
  trackCount : Z;
  tracks : list string;
  isLiked : bool
}.

Record AudioState : Type := mkState {
  currentTrack : option Track;
  isPlaying : bool;
  volume : json;
  progress : Q;
  state_duration : Q;
  queue : list Track;
  currentQueueIndex : Z;
  repeatMode : string;
  shuffle : bool;
  library : list Track;
  playlists : list Playlist;
  loading : bool;
  error : option string
}.

Definition initialState : AudioState :=
  {| currentTrack := None;
     isPlaying := false;
     volume := JNum (7 # 10);
     progress := 0%Q;
     state_duration := 0%Q;
     queue := [];
     currentQueueIndex := -1;
     repeatMode := "none";
     shuffle := false;
     library := [];
     playlists := [];
     loading := false;
     error := None |}.

Inductive Action : Type :=
| SET_CURRENT_TRACK (payload : option Track)
| SET_PLAYBACK_STATE (payload : bool)
| SET_VOLUME (payload : json)
| SET_PROGRESS (payload : Q)
| SET_DURATION (payload : Q)
| SET_QUEUE (payload : list Track) (startIndex : option Z)
| ADD_TO_QUEUE (payload : Track)
| REMOVE_FROM_QUEUE (payload : Z)
| CLEAR_QUEUE
| SET_REPEAT_MODE (payload : string)
| SET_SHUFFLE (payload : bool)
| SET_LIBRARY (payload : list Track)
| SET_PLAYLISTS (payload : list Playlist)
| SET_QUEUE_INDEX (payload : Z)
| SET_LOADING (payload : bool)
| SET_ERROR (payload : option string).

(** [array.length] as an index-typed number. *)
Definition len {A : Type} (l : list A) : Z := Z.of_nat (List.length l).

(** [array[i]]: [undefined] outside [0 .. length-1]. *)
Definition at_index {A : Type} (l : list A) (i : Z) : option A :=
  if i <? 0 then None else nth_error l (Z.to_nat i).

(** [array.filter((_, idx) => idx !== index)], scanning from position [from]. *)
Fixpoint filter_other_index {A : Type} (from index : Z) (l : list A) : list A :=
  match l with
  | [] => []
  | x :: rest =>
      if from =? index then filter_other_index (from + 1) index rest
      else x :: filter_other_index (from + 1) index rest
  end.

(** [queue.some(q => q.id === track.id)] *)
Definition some_same_id (q : list Track) (t : Track) : bool :=
  existsb (fun queueTrack => (id queueTrack =? id t)%string) q.

(** [queue.findIndex(q => q.id === track.id)], [-1] when there is none. *)
Fixpoint findIndex_from (from : Z) (q : list Track) (t : Track) : Z :=
  match q with
  | [] => -1
  | queued :: rest =>
      if (id queued =? id t)%string then from else findIndex_from (from + 1) rest t
  end.

Definition findIndex_same_id (q : list Track) (t : Track) : Z :=
  findIndex_from 0 q t.

(** [Math.min] on indices. *)
Definition Math_min (a b : Z) : Z := Z.min a b.

(** [x || 0] on a number. *)
Definition or_zero (q : Q) : Q := if Qeq_bool q 0 then 0%Q else q.

(** [track.duration || 0] *)
Definition duration_or_zero (t : Track) : Q :=
  match duration t with
  | Some d => or_zero d
  | None => 0%Q
  end.

(** Object spread with one overridden property: [{ ...state, field: v }]. *)
Definition with_currentTrack (v : option Track) (state : AudioState) : AudioState :=
  {| currentTrack := v; isPlaying := isPlaying state; volume := volume state;
     progress := progress state; state_duration := state_duration state;
     queue := queue state; currentQueueIndex := currentQueueIndex state;
     repeatMode := repeatMode state; shuffle := shuffle state;
     library := library state; playlists := playlists state;
     loading := loading state; error := error state |}.

Definition with_isPlaying (v : bool) (state : AudioState) : AudioState :=
  {| currentTrack := currentTrack state; isPlaying := v;
     volume := volume state; progress := progress state;
     state_duration := state_duration state; queue := queue state;
     currentQueueIndex := currentQueueIndex state;
     repeatMode := repeatMode state; shuffle := shuffle state;
     library := library state; playlists := playlists state;
     loading := loading state; error := error state |}.

Definition with_volume (v : json) (state : AudioState) : AudioState :=
  {| currentTrack := currentTrack state; isPlaying := isPlaying state;
     volume := v; progress := progress state;
     state_duration := state_duration state; queue := queue state;
     currentQueueIndex := currentQueueIndex state;
     repeatMode := repeatMode state; shuffle := shuffle state;
     library := library state; playlists := playlists state;
     loading := loading state; error := error state |}.

Definition with_progress (v : Q) (state : AudioState) : AudioState :=
  {| currentTrack := currentTrack state; isPlaying := isPlaying state;
     volume := volume state; progress := v;
     state_duration := state_duration state; queue := queue state;
     currentQueueIndex := currentQueueIndex state;
     repeatMode := repeatMode state; shuffle := shuffle state;
     library := library state; playlists := playlists state;
     loading := loading state; error := error state |}.

Definition with_state_duration (v : Q) (state : AudioState) : AudioState :=
  {| currentTrack := currentTrack state; isPlaying := isPlaying state;
     volume := volume state; progress := progress state; state_duration := v;
     queue := queue state; currentQueueIndex := currentQueueIndex state;
     repeatMode := repeatMode state; shuffle := shuffle state;
     library := library state; playlists := playlists state;
     loading := loading state; error := error state |}.

Definition with_queue (v : list Track) (state : AudioState) : AudioState :=
  {| currentTrack := currentTrack state; isPlaying := isPlaying state;
     volume := volume state; progress := progress state;
     state_duration := state_duration state; queue := v;
     currentQueueIndex := currentQueueIndex state;
     repeatMode := repeatMode state; shuffle := shuffle state;
     library := library state; playlists := playlists state;
     loading := loading state; error := error state |}.

Definition with_currentQueueIndex (v : Z) (state : AudioState) : AudioState :=
  {| currentTrack := currentTrack state; isPlaying := isPlaying state;
     volume := volume state; progress := progress state;
     state_duration := state_duration state; queue := queue state;
     currentQueueIndex := v; repeatMode := repeatMode state;
     shuffle := shuffle state; library := library state;
     playlists := playlists state; loading := loading state;
     error := error state |}.

Definition with_repeatMode (v : string) (state : AudioState) : AudioState :=
  {| currentTrack := currentTrack state; isPlaying := isPlaying state;
     volume := volume state; progress := progress state;
     state_duration := state_duration state; queue := queue state;
     currentQueueIndex := currentQueueIndex state; repeatMode := v;
     shuffle := shuffle state; library := library state;
     playlists := playlists state; loading := loading state;
     error := error state |}.

Definition with_shuffle (v : bool) (state : AudioState) : AudioState :=
  {| currentTrack := currentTrack state; isPlaying := isPlaying state;
     volume := volume state; progress := progress state;
     state_duration := state_duration state; queue := queue state;
     currentQueueIndex := currentQueueIndex state;
     repeatMode := repeatMode state; shuffle := v; library := library state;
     playlists := playlists state; loading := loading state;
     error := error state |}.

Definition with_library (v : list Track) (state : AudioState) : AudioState :=
  {| currentTrack := currentTrack state; isPlaying := isPlaying state;
     volume := volume state; progress := progress state;
     state_duration := state_duration state; queue := queue state;
     currentQueueIndex := currentQueueIndex state;
     repeatMode := repeatMode state; shuffle := shuffle state; library := v;
     playlists := playlists state; loading := loading state;
     error := error state |}.

Definition with_playlists (v : list Playlist) (state : AudioState) : AudioState :=
  {| currentTrack := currentTrack state; isPlaying := isPlaying state;
     volume := volume state; progress := progress state;
     state_duration := state_duration state; queue := queue state;
     currentQueueIndex := currentQueueIndex state;
     repeatMode := repeatMode state; shuffle := shuffle state;
     library := library state; playlists := v; loading := loading state;
     error := error state |}.

Definition with_loading (v : bool) (state : AudioState) : AudioState :=
  {| currentTrack := currentTrack state; isPlaying := isPlaying state;
     volume := volume state; progress := progress state;
     state_duration := state_duration state; queue := queue state;
     currentQueueIndex := currentQueueIndex state;
     repeatMode := repeatMode state; shuffle := shuffle state;
     library := library state; playlists := playlists state; loading := v;
     error := error state |}.

Definition with_error (v : option string) (state : AudioState) : AudioState :=
  {| currentTrack := currentTrack state; isPlaying := isPlaying state;
     volume := volume state; progress := progress state;
     state_duration := state_duration state; queue := queue state;
     currentQueueIndex := currentQueueIndex state;
     repeatMode := repeatMode state; shuffle := shuffle state;
     library := library state; playlists := playlists state;
     loading := loading state; error := v |}.

Definition audioReducer (state : AudioState) (action : Action) : AudioState :=
  match action with
  | SET_CURRENT_TRACK payload => with_currentTrack payload state
  | SET_PLAYBACK_STATE payload => with_isPlaying payload state
  | SET_VOLUME payload => with_volume payload state
  | SET_PROGRESS payload => with_progress payload state
  | SET_DURATION payload => with_state_duration payload state
  | SET_QUEUE payload startIndex =>
      let startIndex :=
        match startIndex with
        | Some i => i
        | None => if len payload >? 0 then 0 else -1
        end in
      with_currentQueueIndex startIndex (with_queue payload state)
  | ADD_TO_QUEUE payload =>
      if some_same_id (queue state) payload then state
      else
        let queueWasEmpty := len (queue state) =? 0 in
        let newQueue := (queue state ++ [payload])%list in
        with_currentTrack
          (if queueWasEmpty then Some payload else currentTrack state)
          (with_currentQueueIndex
             (if queueWasEmpty then 0 else currentQueueIndex state)
             (with_queue newQueue state))
  | REMOVE_FROM_QUEUE payload =>
      let newQueue := filter_other_index 0 payload (queue state) in
      with_currentQueueIndex
        (if len newQueue =? 0 then -1
         else if currentQueueIndex state >=? len newQueue
              then len newQueue - 1
              else currentQueueIndex state)
        (with_queue newQueue state)
  | CLEAR_QUEUE =>
      with_currentTrack None (with_currentQueueIndex (-1) (with_queue [] state))
  | SET_REPEAT_MODE payload => with_repeatMode payload state
  | SET_SHUFFLE payload => with_shuffle payload state
  | SET_LIBRARY payload => with_library payload state
  | SET_PLAYLISTS payload => with_playlists payload state
  | SET_QUEUE_INDEX payload => with_currentQueueIndex payload state
  | SET_LOADING payload => with_loading payload state
  | SET_ERROR payload => with_error payload state
  end.

(** [dispatch(action)], written after the store it acts on so that a
    callback reads top to bottom: [state |> dispatch a |> dispatch b]. *)
Definition dispatch (action : Action) (state : AudioState) : AudioState :=
  audioReducer state action.

Notation "s |> f" := (f s) (at level 45, left associativity, only parsing).

(** ** Calls across the preload bridge *)

(** Outcome of [if (window?.electronAPI) await window.electronAPI.f(..)]:
    the bridge is absent (nothing is awaited), the promise resolves, or it
    rejects with an error carrying [message]. *)
Inductive ElectronCall : Type :=
| ApiMissing
| ApiResolved
| ApiRejected (message : string).

(** Outcome of [getLibrary] followed by [enrichTracksWithArtwork]. *)
Inductive LibraryLoad : Type :=
| LoadNoApi
| LoadResolved (enriched : list Track)
| LoadRejected (message : string).

(** ** Transport callbacks *)

Definition pausePlayback (api : ElectronCall) (state : AudioState) : AudioState :=
  match api with
  | ApiRejected message => state |> dispatch (SET_ERROR (Some message))
  | _ => state |> dispatch (SET_PLAYBACK_STATE false)
  end.

Definition resumePlayback (api : ElectronCall) (state : AudioState) : AudioState :=
  match api with
  | ApiRejected message => state |> dispatch (SET_ERROR (Some message))
  | _ => state |> dispatch (SET_PLAYBACK_STATE true)
  end.

Definition togglePlayPause (api : ElectronCall) (state : AudioState) : AudioState :=
  if isPlaying state then pausePlayback api state
  else match currentTrack state with
       | Some _ => resumePlayback api state
       | None => state
       end.

(** The [try] block shared by [nextTrack] and [previousTrack]: ask the
    backend for the chosen track, then move the cursor and restart. *)
Definition start_selected (api : ElectronCall) (index : Z) (t : Track)
  (state : AudioState) : AudioState :=
  match api with
  | ApiRejected message => state |> dispatch (SET_ERROR (Some message))
  | _ =>
      state |> dispatch (SET_QUEUE_INDEX index)
            |> dispatch (SET_CURRENT_TRACK (Some t))
            |> dispatch (SET_PROGRESS 0%Q)
            |> dispatch (SET_DURATION (duration_or_zero t))
            |> dispatch (SET_PLAYBACK_STATE true)
  end.

(** What the part of a skip callback before its [try] block arrives at. *)
Inductive Selection : Type :=
| StillDrawing
| Nothing
| Selected (index : Z) (t : Track).

(** [Math.floor(Math.random() * length)] for the draw [r]. *)
Definition random_index (r : Q) (length : Z) : Z :=
  Qfloor (r * inject_Z length).

(** The [do .. while (nextIndex === currentQueueIndex)] loop over the
    successive values of [Math.random()]; [None] when every supplied draw
    landed on the cursor, so that the loop is still running. *)
Fixpoint shuffle_pick (draws : list Q) (length cursor : Z) : option Z :=
  match draws with
  | [] => None
  | r :: later =>
      let nextIndex := random_index r length in
      if nextIndex =? cursor then shuffle_pick later length cursor
      else Some nextIndex
  end.

(** [const next = state.queue[nextIndex]; if (!next) return;] *)
Definition select_at (q : list Track) (index : Z) : Selection :=
  match at_index q index with
  | Some t => Selected index t
  | None => Nothing
  end.

Definition nextTrack_selection (draws : list Q) (state : AudioState) : Selection :=
  if len (queue state) =? 0 then Nothing
  else if (repeatMode state =? "one")%string then
    select_at (queue state) (currentQueueIndex state)
  else if shuffle state then
    if len (queue state) >? 1 then
      match shuffle_pick draws (len (queue state)) (currentQueueIndex state) with
      | Some nextIndex => select_at (queue state) nextIndex
      | None => StillDrawing
      end
    else select_at (queue state) (currentQueueIndex state)
  else
    let nextIndex := currentQueueIndex state + 1 in
    if nextIndex >=? len (queue state) then
      if (repeatMode state =? "all")%string then select_at (queue state) 0
      else Nothing
    else select_at (queue state) nextIndex.

(** [nextTrack]; [None] only while the shuffle loop has not left yet. *)
Definition nextTrack (api : ElectronCall) (draws : list Q) (state : AudioState)
  : option AudioState :=
  match nextTrack_selection draws state with
  | StillDrawing => None
  | Nothing => Some state
  | Selected nextIndex next => Some (start_selected api nextIndex next state)
  end.

Definition previousTrack_selection (state : AudioState) : Selection :=
  if len (queue state) =? 0 then Nothing
  else
    let prevIndex := currentQueueIndex state - 1 in
    let prevIndex :=
      if prevIndex <? 0 then
        if (repeatMode state =? "all")%string then len (queue state) - 1
        else currentQueueIndex state
      else prevIndex in
    select_at (queue state) prevIndex.

Definition previousTrack (api : ElectronCall) (state : AudioState) : AudioState :=
  match previousTrack_selection state with
  | Selected prevIndex previous => start_selected api prevIndex previous state
  | _ => state
  end.


Definition playTrack (api : ElectronCall) (track : option Track)
  (state : AudioState) : AudioState :=
  match track with
  | None => state
  | Some track =>
      if (path track =? "")%string then state
      else if loading state then state
      else if (match currentTrack state with
               | Some current => (id current =? id track)%string
               | None => false
               end && isPlaying state)%bool then state
      else
        let existingIndex := findIndex_same_id (queue state) track in
        let queuePayload :=
          if existingIndex =? -1 then (queue state ++ [track])%list
          else queue state in
        let targetIndex :=
          if existingIndex =? -1 then len queuePayload - 1 else existingIndex in
        let state := state |> dispatch (SET_ERROR None)
                           |> dispatch (SET_LOADING true) in
        let state :=
          match api with
          | ApiRejected message => state |> dispatch (SET_ERROR (Some message))
          | _ =>
              (if existingIndex =? -1
               then state |> dispatch (SET_QUEUE queuePayload (Some targetIndex))
               else state |> dispatch (SET_QUEUE_INDEX targetIndex))
              |> dispatch (SET_CURRENT_TRACK (Some track))
              |> dispatch (SET_PLAYBACK_STATE true)
              |> dispatch (SET_PROGRESS 0%Q)
              |> dispatch (SET_DURATION (duration_or_zero track))
          end in
        state |> dispatch (SET_LOADING false)
  end.

(** ** Queue callbacks *)

Definition addToQueue (track : option Track) (state : AudioState) : AudioState :=
  match track with
  | None => state
  | Some track => state |> dispatch (ADD_TO_QUEUE track)
  end.

Definition removeFromQueue (index : Z) (state : AudioState) : AudioState :=
  let newQueue := filter_other_index 0 index (queue state) in
  let nextIndex :=
    if len newQueue =? 0 then -1
    else Math_min (currentQueueIndex state) (len newQueue - 1) in
  state |> dispatch (SET_QUEUE newQueue (Some nextIndex))
        |> dispatch (SET_CURRENT_TRACK
                       (if nextIndex >=? 0 then at_index newQueue nextIndex
                        else None)).

Definition clearQueue (state : AudioState) : AudioState :=
  state |> dispatch CLEAR_QUEUE.

Definition setRepeatMode (mode : string) (state : AudioState) : AudioState :=
  state |> dispatch (SET_REPEAT_MODE mode).

Definition toggleShuffle (state : AudioState) : AudioState :=
  state |> dispatch (SET_SHUFFLE (negb (shuffle state))).

(** [loadLibrary(showSpinner)] *)
Definition loadLibrary (showSpinner : bool) (load : LibraryLoad)
  (state : AudioState) : AudioState :=
  match load with
  | LoadNoApi => state
  | _ =>
      let state :=
        if showSpinner then state |> dispatch (SET_LOADING true) else state in
      let state := state |> dispatch (SET_ERROR None) in
      let state :=
        match load with
        | LoadRejected message =>
            state |> dispatch (SET_ERROR (Some message))
                  |> dispatch (SET_LIBRARY [])
        | LoadResolved enriched => state |> dispatch (SET_LIBRARY enriched)
        | LoadNoApi => state
        end in
      if showSpinner then state |> dispatch (SET_LOADING false) else state
  end.

(** ** Event handlers of the WebSocket effect *)

(** [item.id === value] for a string-valued property of a library item. *)
Definition same_string (value : json) (s : string) : bool :=
  match value with
  | JStr v => (s =? v)%string
  | _ => false
  end.

Definition findTrack (lib : list Track) (trackId trackPath : json) : option Track :=
  let byPath :=
    if truthy trackPath
    then find (fun item => same_string trackPath (path item)) lib
    else None in
  if truthy trackId then
    match find (fun item => same_string trackId (id item)) lib with
    | Some found => Some found
    | None => byPath
    end
  else byPath.

(** [typeof payload.key === 'number' ? payload.key : ..] *)
Definition number_field (key : string) (payload : list (string * json)) : option Q :=
  match get_field key payload with
  | Some (JNum q) => Some q
  | _ => None
  end.

(** [if (x !== undefined && x !== null) dispatch(SET_VOLUME x)] *)
Definition apply_volume (payload : list (string * json)) (state : AudioState)
  : AudioState :=
  match get_field "volume" payload with
  | None => state
  | Some JNull => state
  | Some v => state |> dispatch (SET_VOLUME v)
  end.

Definition handleVolumeEvent (payload : list (string * json))
  (state : AudioState) : AudioState :=
  apply_volume payload state.

Section Events.

Variable JSON_parse : string -> option json.
Variable Number_toString : Q -> string.

Definition handlePlaybackEvent (payload : list (string * json))
  (state : AudioState) : AudioState :=
  let playbackState := lowered_field Number_toString "state" payload in
  let trackPath :=
    first_truthy (get_field "track_path" payload) (get_field "trackPath" payload) in
  let trackId :=
    first_truthy (get_field "track_id" payload) (get_field "trackId" payload) in
  let track := findTrack (library state) trackId trackPath in
  let eventDuration :=
    match number_field "track_duration" payload with
    | Some d => Some d
    | None => number_field "trackDuration" payload
    end in
  let effectiveDuration :=
    match track with
    | Some found =>
        match duration found with
        | Some d => Some d
        | None => eventDuration
        end
    | None => eventDuration
    end in
  let bind_found (s : AudioState) :=
    match track with
    | Some found => s |> dispatch (SET_CURRENT_TRACK (Some found))
    | None => s
    end in
  let set_duration (s : AudioState) :=
    match effectiveDuration with
    | Some d => s |> dispatch (SET_DURATION (or_zero d))
    | None => s
    end in
  let state := apply_volume payload state in
  if (playbackState =? "playing")%string then
    state |> dispatch (SET_PLAYBACK_STATE true) |> bind_found |> set_duration
  else if (playbackState =? "paused")%string then
    state |> dispatch (SET_PLAYBACK_STATE false) |> bind_found |> set_duration
  else if (playbackState =? "stopped")%string then
    state |> dispatch (SET_PLAYBACK_STATE false)
          |> dispatch (SET_PROGRESS 0%Q)
          |> dispatch (SET_CURRENT_TRACK track)
          |> set_duration
  else state.

Definition handleLibraryScanEvent (payload : list (string * json))
  (state : AudioState) : AudioState :=
  let status := lowered_field Number_toString "status" payload in
  if (status =? "started")%string then state |> dispatch (SET_LOADING true)
  else if ((status =? "completed") || (status =? "failed"))%string
       then state |> dispatch (SET_LOADING false)
       else state.

Definition handleLibraryUpdatedEvent (load : LibraryLoad) (state : AudioState)
  : AudioState :=
  loadLibrary false load state.

(** The [type] read by [const { type, ...payload } = parsed || {}]: only an
    object has one. *)
Definition event_type (parsed : json) : option json :=
  match parsed with
  | JObj fields => get_field "type" fields
  | _ => None
  end.

(** The rest object of the same pattern; for a parsed value that is not
    an object [type] is undefined and the rest object is never read. *)
Definition event_payload (parsed : json) : list (string * json) :=
  match parsed with
  | JObj fields => without_field "type" fields
  | _ => []
  end.

Definition handleEventMessage (load : LibraryLoad) (rawMessage : string)
  (state : AudioState) : AudioState :=
  match JSON_parse rawMessage with
  | None => state
  | Some parsed =>
      let payload := event_payload parsed in
      match event_type parsed with
      | Some (JStr type) =>
          if (type =? "playback_state")%string then
            handlePlaybackEvent payload state
          else if (type =? "volume_changed")%string then
            handleVolumeEvent payload state
          else if (type =? "library_scan")%string then
            handleLibraryScanEvent payload state
          else if (type =? "library_updated")%string then
            handleLibraryUpdatedEvent load state
          else state
      | _ => state
      end
  end.

End Events.

(** ** Properties under study *)

(** The three transport states as the store encodes them. *)
Inductive Transport : Type := stopped | playing | paused.

Definition transport (state : AudioState) : Transport :=
  if isPlaying state then playing
  else match currentTrack state with
       | Some _ => paused
       | None => stopped
       end.

(** The queue invariant: cursor [-1] on an empty queue, a valid index
    otherwise. *)
Definition cursor_ok (q : list Track) (cursor : Z) : bool :=
  if len q =? 0 then cursor =? -1
  else ((0 <=? cursor) && (cursor <? len q))%bool.

Definition queue_invariant (state : AudioState) : Prop :=
  cursor_ok (queue state) (currentQueueIndex state) = true.

(** The reducer actions behind set, add, remove and clear. *)
Definition is_queue_operation (action : Action) : bool :=
  match action with
  | SET_QUEUE _ _ | ADD_TO_QUEUE _ | REMOVE_FROM_QUEUE _ | CLEAR_QUEUE => true
  | _ => false
  end.

(** Actions that write neither the queue nor the cursor. *)
Definition leaves_queue (action : Action) : bool :=
  match action with
  | SET_QUEUE _ _ | ADD_TO_QUEUE _ | REMOVE_FROM_QUEUE _ | CLEAR_QUEUE
  | SET_QUEUE_INDEX _ => false
  | _ => true
  end.

(** The bridge call did not reject. *)
Definition accepted (api : ElectronCall) : bool :=
  match api with
  | ApiRejected _ => false
  | _ => true
  end.

(** A [Math.random()] value lies in the half-open unit interval. *)
Definition unit_draw (r : Q) : Prop := (0 <= r)%Q /\ (r < 1)%Q.

(** Tracks and messages used in the examples. *)
Definition trackA : Track := mkTrack "a" "/music/a.flac" (Some (180 # 1)).
Definition trackB : Track := mkTrack "b" "/music/b.flac" (Some (240 # 1)).
Definition trackC : Track := mkTrack "c" "/music/c.flac" None.

(** The text of a JSON string literal. *)
Definition quoted (s : string) : string :=
  String (ascii_of_nat 34) (s ++ String (ascii_of_nat 34) EmptyString).

(** The message [{ type: heartbeat }] as it arrives on the socket. *)
Definition heartbeat_text : string :=
  "{" ++ quoted "type" ++ ":" ++ quoted "heartbeat" ++ "}".

(** A stand-in for [JSON.parse] on the few messages used in the examples;
    any other text is reported as a syntax error. *)
Definition sample_parse (raw : string) : option json :=
  if (raw =? heartbeat_text)%string then
    Some (JObj [("type", JStr "heartbeat")])
  else if (raw =? "[1]")%string then Some (JArr [JNum 1])
  else if (raw =? "null")%string then Some JNull
  else None.

(** A stand-in for [Number.prototype.toString] in the examples. *)
Definition sample_number_text (q : Q) : string := "0".

(** ** Further callbacks of [AudioProvider] *)

Definition setVolume (api : ElectronCall) (v : json) (state : AudioState)
  : AudioState :=
  match api with
  | ApiRejected message => state |> dispatch (SET_ERROR (Some message))
  | _ => state |> dispatch (SET_VOLUME v)
  end.

(** [adjustVolume(delta)]: [Math.max(0, Math.min(1, state.volume + delta))]
    handed to [setVolume]. [None] when the volume held by the store is not
    a number: the coercions of [+] on other values are outside the model. *)
Definition adjustVolume (api : ElectronCall) (delta : Q) (state : AudioState)
  : option AudioState :=
  match volume state with
  | JNum v => Some (setVolume api (JNum (Qmax 0 (Qmin 1 (v + delta)))) state)
  | _ => None
  end.

(** [scanLibrary(directories)], by the outcome of the scan and of the
    artwork enrichment. *)
Definition scanLibrary (load : LibraryLoad) (state : AudioState) : AudioState :=
  match load with
  | LoadNoApi => state
  | LoadResolved enriched =>
      state |> dispatch (SET_LOADING true)
            |> dispatch (SET_ERROR None)
            |> dispatch (SET_LIBRARY enriched)
            |> dispatch (SET_LOADING false)
  | LoadRejected message =>
      state |> dispatch (SET_LOADING true)
            |> dispatch (SET_ERROR None)
            |> dispatch (SET_ERROR (Some message))
            |> dispatch (SET_LOADING false)
  end.

(** [deletePlaylist(playlistId)]: a rejected bridge call is recorded and
    the playlist is dropped from the store all the same. *)
Definition deletePlaylist (api : ElectronCall) (playlistId : option string)
  (state : AudioState) : AudioState :=
  match playlistId with
  | None => state
  | Some playlistId =>
      if (playlistId =? "")%string then state
      else
        let remaining :=
          filter (fun playlist => negb (playlist_id playlist =? playlistId)%string)
                 (playlists state) in
        match api with
        | ApiRejected message =>
            state |> dispatch (SET_ERROR (Some message))
                  |> dispatch (SET_PLAYLISTS remaining)
        | _ => state |> dispatch (SET_PLAYLISTS remaining)
        end
  end.

(** [{ ...playlist, isLiked: !playlist.isLiked }] *)
Definition flip_liked (playlist : Playlist) : Playlist :=
  {| playlist_id := playlist_id playlist; name := name playlist;
     description := description playlist; trackCount := trackCount playlist;
     tracks := tracks playlist; isLiked := negb (isLiked playlist) |}.

Definition togglePlaylistFavorite (playlistId : string) (state : AudioState)
  : AudioState :=
  state |> dispatch
    (SET_PLAYLISTS
       (map (fun playlist =>
               if (playlist_id playlist =? playlistId)%string
               then flip_liked playlist else playlist)
            (playlists state))).

(** One firing of the one-second interval of the progress effect, with
    [progressRef] and [durationRef] in step with the store. The flag tells
    whether the interval stays armed ([clearTimer] was not called). The
    sum is exact here, as it is in binary64 for a whole progress below
    2^53; for a fractional progress binary64 rounds it. *)
Definition progress_tick (state : AudioState) : AudioState * bool :=
  let duration := or_zero (state_duration state) in
  let next :=
    if Qeq_bool duration 0 then (progress state + 1)%Q
    else Qmin (progress state + 1) duration in
  (state |> dispatch (SET_PROGRESS next),
   negb (negb (Qeq_bool duration 0) && Qle_bool duration next)).

(** The effect arms the interval only while a bound track is playing. *)
Definition timer_armed (state : AudioState) : bool :=
  (isPlaying state &&
   match currentTrack state with Some _ => true | None => false end)%bool.

(** [n] seconds of the progress effect with no other dispatch in between. *)
Fixpoint progress_after (n : nat) (state : AudioState) : AudioState :=
  match n with
  | O => state
  | S later =>
      if timer_armed state then
        let (ticked, armed) := progress_tick state in
        if armed then progress_after later ticked else ticked
      else state
  end.

(** [playTrack] together with what its caller dispatches right after
    calling it ([meanwhile]). An [async] function runs synchronously up to
    its first [await]: without a bridge nothing is awaited and the caller
    continues after the whole body; with a bridge the caller continues while
    the call is pending, and the rest of [playTrack] still uses the queue it
    captured on entry. *)
Definition playTrack_then (api : ElectronCall) (track : option Track)
  (meanwhile : AudioState -> AudioState) (state : AudioState) : AudioState :=
  match track with
  | None => meanwhile state
  | Some track =>
      if (path track =? "")%string then meanwhile state
      else if loading state then meanwhile state
      else if (match currentTrack state with
               | Some current => (id current =? id track)%string
               | None => false
               end && isPlaying state)%bool then meanwhile state
      else
        let existingIndex := findIndex_same_id (queue state) track in
        let queuePayload :=
          if existingIndex =? -1 then (queue state ++ [track])%list
          else queue state in
        let targetIndex :=
          if existingIndex =? -1 then len queuePayload - 1 else existingIndex in
        let entered := state |> dispatch (SET_ERROR None)
                             |> dispatch (SET_LOADING true) in
        let commit (s : AudioState) :=
          (if existingIndex =? -1
           then s |> dispatch (SET_QUEUE queuePayload (Some targetIndex))
           else s |> dispatch (SET_QUEUE_INDEX targetIndex))
          |> dispatch (SET_CURRENT_TRACK (Some track))
          |> dispatch (SET_PLAYBACK_STATE true)
          |> dispatch (SET_PROGRESS 0%Q)
          |> dispatch (SET_DURATION (duration_or_zero track)) in
        match api with
        | ApiMissing =>
            meanwhile (commit entered |> dispatch (SET_LOADING false))
        | ApiResolved =>
            commit (meanwhile entered) |> dispatch (SET_LOADING false)
        | ApiRejected message =>
            meanwhile entered |> dispatch (SET_ERROR (Some message))
                              |> dispatch (SET_LOADING false)
        end
  end.

(** [rest.forEach((track) => addToQueue(track))] *)
Definition addAllToQueue (rest : list Track) (state : AudioState) : AudioState :=
  fold_left (fun s t => addToQueue (Some t) s) rest state.

(** [handlePlaySelected] of the library page, on the list of selected
    tracks it has filtered out. *)
Definition handlePlaySelected (api : ElectronCall) (selectedList : list Track)
  (state : AudioState) : AudioState :=
  match selectedList with
  | [] => state
  | first :: rest => playTrack_then api (Some first) (addAllToQueue rest) state
  end.

(** [trackIds.map(id => library.find(t => t.id === id)).filter(Boolean)] *)
Definition tracksToPlay (lib : list Track) (trackIds : list string) : list Track :=
  flat_map (fun wanted =>
              match find (fun t => (id t =? wanted)%string) lib with
              | Some t => [t]
              | None => []
              end) trackIds.

(** [handlePlayPlaylist] of the playlists page. *)
Definition handlePlayPlaylist (api : ElectronCall) (playlist : Playlist)
  (state : AudioState) : AudioState :=
  match tracksToPlay (library state) (tracks playlist) with
  | [] => state
  | first :: rest => playTrack_then api (Some first) (addAllToQueue rest) state
  end.

(** [computePlaylistDuration] of the playlists page. The sums are exact
    here, as they are in binary64 for whole durations with a total below
    2^53; fractional durations are rounded at each step there. *)
Definition computePlaylistDuration (lib : list Track) (playlist : Playlist) : Q :=
  fold_left
    (fun sum wanted =>
       (sum + match find (fun item => (id item =? wanted)%string) lib with
              | Some t => duration_or_zero t
              | None => 0
              end)%Q)
    (tracks playlist) 0%Q.

(** ** The playback bar *)

(** [handleRepeatCycle]: none, all, one, and round again. *)
Definition handleRepeatCycle (state : AudioState) : AudioState :=
  let nextMode :=
    if (repeatMode state =? "none")%string then "all"
    else if (repeatMode state =? "all")%string then "one"
    else "none" in
  setRepeatMode nextMode state.

Definition MAX_SAFE_INTEGER : Q := inject_Z 9007199254740991.

(** [Math.max(0, duration || 0)] *)
Definition safeDuration (state : AudioState) : Q :=
  Qmax 0 (or_zero (state_duration state)).

(** [Math.min(Math.max(0, progress || 0), safeDuration || MAX_SAFE_INTEGER)] *)
Definition safeProgress (state : AudioState) : Q :=
  Qmin (Qmax 0 (or_zero (progress state)))
       (if Qeq_bool (safeDuration state) 0 then MAX_SAFE_INTEGER
        else safeDuration state).

(** [Math.max(0, safeDuration - safeProgress)]; the difference is exact
    here, as it is in binary64 for whole numbers below 2^53. *)
Definition remaining (state : AudioState) : Q :=
  Qmax 0 (safeDuration state - safeProgress state).

(** ** Time formatting of the views *)

(** The text of an integer-valued number, as [toString] and template
    interpolation give it: its decimal digits, which is what JavaScript
    prints for every whole number below 2^53. *)
Definition decimal (z : Z) : string := NilZero.string_of_int (Z.to_int z).

(** [text.padStart(2, '0')] *)
Definition padStart2 (text : string) : string :=
  match String.length text with
  | O => "00"
  | S O => "0" ++ text
  | _ => text
  end.

(** Rounding toward zero, the quotient behind [%]. *)
Definition js_trunc (q : Q) : Z :=
  if Qle_bool 0 q then Qfloor q else Qceiling q.

(** [x % m]: the remainder has the sign of [x]. *)
Definition js_remainder (x m : Q) : Q :=
  (x - inject_Z (js_trunc (x / m)) * m)%Q.

(** [formatTime] of the playback bar and the player, which is also
    [formatDuration] of the queue panel and the library page. The quotient
    is exact here; the binary64 quotient has the same whole part for every
    number of seconds below 2^53, and the remainder is exact in both. *)
Definition formatTime (seconds : option Q) : string :=
  match seconds with
  | None => "0:00"
  | Some seconds =>
      if Qeq_bool seconds 0 then "0:00"
      else
        let mins := Qfloor (seconds / 60) in
        let secs := Qfloor (js_remainder seconds 60) in
        decimal mins ++ ":" ++ padStart2 (decimal secs)
  end.

(** [formatDuration] of the playlists page, with exact quotients as in
    [formatTime]: the same whole parts as binary64 for totals below 2^53. *)
Definition Playlists_formatDuration (totalSeconds : Q) : string :=
  let hours := Qfloor (totalSeconds / 3600) in
  let minutes := Qfloor (js_remainder totalSeconds 3600 / 60) in
  let seconds := Qfloor (js_remainder totalSeconds 60) in
  if hours >? 0 then
    decimal hours ++ ":" ++ padStart2 (decimal minutes)
                  ++ ":" ++ padStart2 (decimal seconds)
  else decimal minutes ++ ":" ++ padStart2 (decimal seconds).

(** ** Runs without the Electron bridge *)

(** One user action, socket message or timer firing in a window that has
    no [window.electronAPI] (the renderer opened outside Electron). Every
    bridge call of the provider sits behind a test for the bridge, and the
    one [await] still reached (of the library reload that a
    [library_updated] message asks for, which returns at once) is followed
    by no dispatch; so here every callback has made all its dispatches
    before the next one begins, on the store the previous one left. *)
Inductive LocalCommand : Type :=
| LocalPlayTrack (track : option Track)
| LocalPause
| LocalResume
| LocalTogglePlayPause
| LocalNext (draws : list Q)
| LocalPrevious
| LocalAddToQueue (track : option Track)
| LocalRemoveFromQueue (index : Z)
| LocalClearQueue
| LocalSetRepeatMode (mode : string)
| LocalRepeatCycle
| LocalToggleShuffle
| LocalSetVolume (v : json)
| LocalLoadLibrary (showSpinner : bool)
| LocalScanLibrary
| LocalDeletePlaylist (playlistId : option string)
| LocalToggleFavorite (playlistId : string)
| LocalPlaySelected (selectedList : list Track)
| LocalPlayPlaylist (playlist : Playlist)
| LocalSocketMessage (rawMessage : string)
| LocalTick.

Section LocalRuns.

Variable JSON_parse : string -> option json.
Variable Number_toString : Q -> string.

(** [None] only for a press of next whose shuffle loop has not left after
    all the draws supplied. *)
Definition run_local (c : LocalCommand) (state : AudioState)
  : option AudioState :=
  match c with
  | LocalPlayTrack track => Some (playTrack ApiMissing track state)
  | LocalPause => Some (pausePlayback ApiMissing state)
  | LocalResume => Some (resumePlayback ApiMissing state)
  | LocalTogglePlayPause => Some (togglePlayPause ApiMissing state)
  | LocalNext draws => nextTrack ApiMissing draws state
  | LocalPrevious => Some (previousTrack ApiMissing state)
  | LocalAddToQueue track => Some (addToQueue track state)
  | LocalRemoveFromQueue index => Some (removeFromQueue index state)
  | LocalClearQueue => Some (clearQueue state)
  | LocalSetRepeatMode mode => Some (setRepeatMode mode state)
  | LocalRepeatCycle => Some (handleRepeatCycle state)
  | LocalToggleShuffle => Some (toggleShuffle state)
  | LocalSetVolume v => Some (setVolume ApiMissing v state)
  | LocalLoadLibrary showSpinner => Some (loadLibrary showSpinner LoadNoApi state)
  | LocalScanLibrary => Some (scanLibrary LoadNoApi state)
  | LocalDeletePlaylist playlistId =>
      Some (deletePlaylist ApiMissing playlistId state)
  | LocalToggleFavorite playlistId =>
      Some (togglePlaylistFavorite playlistId state)
  | LocalPlaySelected selectedList =>
      Some (handlePlaySelected ApiMissing selectedList state)
  | LocalPlayPlaylist playlist =>
      Some (handlePlayPlaylist ApiMissing playlist state)
  | LocalSocketMessage rawMessage =>
      Some (handleEventMessage JSON_parse Number_toString LoadNoApi
              rawMessage state)
  | LocalTick => Some (progress_after 1 state)
  end.

Fixpoint run_locals (cs : list LocalCommand) (state : AudioState)
  : option AudioState :=
  match cs with
  | [] => Some state
  | c :: later =>
      match run_local c state with
      | Some state' => run_locals later state'
      | None => None
      end
  end.

End LocalRuns.

(** The message [{ type: library_updated }] as it arrives on the socket,
    and a stand-in for [JSON.parse] that knows it and the heartbeat. *)
Definition library_updated_text : string :=
  "{" ++ quoted "type" ++ ":" ++ quoted "library_updated" ++ "}".

Definition sample_parse_events (raw : string) : option json :=
  if (raw =? library_updated_text)%string then
    Some (JObj [("type", JStr "library_updated")])
  else sample_parse raw.

(** No two queued tracks share an identity. *)
Definition distinct_ids (q : list Track) : Prop := NoDup (map id q).

(** What every run of the provider keeps: a valid cursor over a queue
    without duplicate identities. *)
Definition store_invariant (s : AudioState) : Prop :=
  queue_invariant s /\ distinct_ids (queue s).

(** The queue, its cursor and the playback modes are the same in both
    stores. *)
Definition same_queue_settings (s s' : AudioState) : Prop :=
  queue s' = queue s /\
  currentQueueIndex s' = currentQueueIndex s /\
  repeatMode s' = repeatMode s /\
  shuffle s' = shuffle s /\
  playlists s' = playlists s.

(** ** Helper lemmas *)

Lemma len_nonneg {A : Type} (l : list A) : 0 <= len l.
Proof. unfold len. lia. Qed.

Lemma len_nil_iff {A : Type} (l : list A) : len l = 0 <-> l = [].
Proof.
  unfold len. split; intro H.
  - destruct l; [reflexivity | simpl in H; lia].
  - subst. reflexivity.
Qed.

Lemma len_cons {A : Type} (x : A) (l : list A) : len (x :: l) = 1 + len l.
Proof. unfold len. change (List.length (x :: l)) with (S (List.length l)). lia. Qed.

Lemma len_app_one {A : Type} (l : list A) (x : A) : len (l ++ [x]) = len l + 1.
Proof. unfold len. rewrite length_app. simpl. lia. Qed.

Lemma at_index_in_range {A : Type} (l : list A) (i : Z) :
  0 <= i < len l -> exists x, at_index l i = Some x.
Proof.
  intros [Hlo Hhi]. unfold at_index.
  destruct (i <? 0) eqn:E; [apply Z.ltb_lt in E; lia |].
  destruct (nth_error l (Z.to_nat i)) eqn:N; [eauto |].
  apply nth_error_None in N. unfold len in Hhi. lia.
Qed.

Lemma cursor_ok_spec (q : list Track) (c : Z) :
  cursor_ok q c = true <->
  (q = [] /\ c = -1) \/ (q <> [] /\ 0 <= c < len q).
Proof.
  unfold cursor_ok. destruct (len q =? 0) eqn:E.
  - apply Z.eqb_eq in E. apply len_nil_iff in E. subst q.
    rewrite Z.eqb_eq. split.
    + intro; left; auto.
    + intros [[_ H] | [H _]]; [exact H | congruence].
  - apply Z.eqb_neq in E. rewrite andb_true_iff, Z.leb_le, Z.ltb_lt. split.
    + intro H. right. split; [| lia]. intro Hq. apply E. apply len_nil_iff. exact Hq.
    + intros [[Hq _] | [_ H]]; [| lia]. exfalso. apply E. apply len_nil_iff. exact Hq.
Qed.

Lemma filter_other_index_len {A : Type} (l : list A) (from index : Z) :
  len (filter_other_index from index l) <= len l.
Proof.
  revert from. induction l as [| x rest IH]; intro from; simpl.
  - lia.
  - specialize (IH (from + 1)). unfold len in *.
    destruct (from =? index); simpl; lia.
Qed.

Lemma some_same_id_true (q : list Track) (t : Track) :
  some_same_id q t = true <-> exists queued, In queued q /\ id queued = id t.
Proof.
  unfold some_same_id. rewrite existsb_exists.
  split; intros [x [Hin Hid]]; exists x; split; auto.
  - apply String.eqb_eq. exact Hid.
  - apply String.eqb_eq. exact Hid.
Qed.

Lemma findIndex_from_range (q : list Track) (t : Track) (from : Z) :
  findIndex_from from q t = -1 \/
  from <= findIndex_from from q t < from + len q.
Proof.
  revert from. induction q as [| queued rest IH]; intro from; simpl.
  - left; reflexivity.
  - destruct (id queued =? id t)%string.
    + right. unfold len. simpl. lia.
    + destruct (IH (from + 1)) as [H | H]; [left; exact H |].
      right. unfold len in *. simpl. lia.
Qed.

Lemma start_selected_accepted (api : ElectronCall) (i : Z) (t : Track)
  (s : AudioState) :
  accepted api = true ->
  start_selected api i t s =
  with_isPlaying true
    (with_state_duration (duration_or_zero t)
       (with_progress 0%Q
          (with_currentTrack (Some t) (with_currentQueueIndex i s)))).
Proof. destruct api; simpl; intro H; [reflexivity | reflexivity | discriminate]. Qed.

(** ** C1: [previousTrack] at the head of the queue *)

(** C1, as worded, fails: with the cursor on index 0 and a repeat mode other
    than all, [previousTrack] does not return empty-handed; it selects the
    track at index 0 and restarts it. *)
Lemma previous_at_head_returns_none_refuted :
  ~ (forall (s : AudioState) (api : ElectronCall),
        queue s <> [] -> repeatMode s <> "all" -> currentQueueIndex s = 0 ->
        previousTrack_selection s = Nothing /\
        currentQueueIndex (previousTrack api s) = 0).
Proof.
  intro H.
  pose (s := with_progress (42 # 1)
               (with_currentTrack (Some trackA)
                  (with_currentQueueIndex 0
                     (with_queue [trackA; trackB] initialState)))).
  assert (Hsel : previousTrack_selection s = Nothing).
  { apply (H s ApiResolved); [discriminate | discriminate | reflexivity]. }
  vm_compute in Hsel. discriminate Hsel.
Qed.

(** C1 (amended): for a non-empty queue, a repeat mode other than all and
    the cursor on index 0, [previousTrack] keeps the cursor at 0 and selects
    the track at index 0 again; unless the bridge call rejects, that track
    is bound, progress is reset to 0 and the playing flag is set, and when
    the call rejects only the error field changes. *)
Theorem previous_at_head_restarts_first :
  forall (s : AudioState) (api : ElectronCall),
    queue s <> [] -> repeatMode s <> "all" -> currentQueueIndex s = 0 ->
    exists first,
      at_index (queue s) 0 = Some first /\
      previousTrack_selection s = Selected 0 first /\
      currentQueueIndex (previousTrack api s) = 0 /\
      queue (previousTrack api s) = queue s /\
      (accepted api = true ->
       previousTrack api s =
       with_isPlaying true
         (with_state_duration (duration_or_zero first)
            (with_progress 0%Q (with_currentTrack (Some first) s)))) /\
      (forall message, api = ApiRejected message ->
       previousTrack api s = with_error (Some message) s).
Proof.
  intros s api Hq Hrep Hcur.
  destruct (queue s) as [| first rest] eqn:Eq; [congruence |].
  exists first.
  assert (Hsel : previousTrack_selection s = Selected 0 first).
  { unfold previousTrack_selection. rewrite Eq, Hcur.
    replace (len (first :: rest) =? 0) with false
      by (symmetry; apply Z.eqb_neq; unfold len; simpl; lia).
    simpl (0 - 1 <? 0).
    destruct (repeatMode s =? "all")%string eqn:E.
    - apply String.eqb_eq in E. congruence.
    - reflexivity. }
  split; [reflexivity |]. split; [exact Hsel |].
  unfold previousTrack. rewrite Hsel.
  destruct s; simpl in *; subst.
  destruct api; simpl; repeat split; intros; try reflexivity; try discriminate.
  congruence.
Qed.

Lemma previous_at_head_restarts_first_witness :
  exists first,
    at_index [trackA; trackB] 0 = Some first /\
    previousTrack_selection
      (with_currentQueueIndex 0 (with_queue [trackA; trackB] initialState))
    = Selected 0 first.
Proof.
  destruct (previous_at_head_restarts_first
              (with_currentQueueIndex 0 (with_queue [trackA; trackB] initialState))
              ApiResolved) as [first [H1 [H2 _]]].
  - simpl. discriminate.
  - simpl. discriminate.
  - reflexivity.
  - exists first. split; [exact H1 | exact H2].
Defined.

(** ** C2: [resumePlayback] on a stopped transport *)

(** C2, as worded, fails: [resumePlayback] has no guard on the transport
    state, so from the stopped initial store it raises the playing flag. *)
Lemma resume_while_stopped_noop_refuted :
  ~ (forall (s : AudioState) (api : ElectronCall),
        isPlaying s = false -> currentTrack s = None ->
        isPlaying (resumePlayback api s) = false /\
        transport (resumePlayback api s) = stopped).
Proof.
  intro H.
  destruct (H initialState ApiResolved eq_refl eq_refl) as [Hflag _].
  vm_compute in Hflag. discriminate Hflag.
Qed.

(** C2 (amended): on a stopped transport the guarded entry point
    [togglePlayPause] is a no-op; [resumePlayback] itself binds no track and
    touches nothing but one field: the playing flag, which it sets when the
    bridge call does not reject, or the error field when it does. *)
Theorem resume_while_stopped_behaviour :
  forall (s : AudioState) (api : ElectronCall),
    isPlaying s = false -> currentTrack s = None ->
    togglePlayPause api s = s /\
    currentTrack (resumePlayback api s) = None /\
    (accepted api = true -> resumePlayback api s = with_isPlaying true s) /\
    (forall message, api = ApiRejected message ->
       resumePlayback api s = with_error (Some message) s /\
       transport (resumePlayback api s) = stopped).
Proof.
  intros s api Hplay Htrack.
  unfold togglePlayPause. rewrite Hplay, Htrack.
  split; [reflexivity |].
  split; [destruct api; simpl; exact Htrack |].
  split.
  - destruct api; simpl; intro H; [reflexivity | reflexivity | discriminate H].
  - intros message ->. split; [reflexivity |].
    unfold transport. simpl. rewrite Hplay, Htrack. reflexivity.
Qed.

Lemma resume_while_stopped_behaviour_witness :
  togglePlayPause ApiResolved initialState = initialState /\
  resumePlayback ApiResolved initialState = with_isPlaying true initialState.
Proof.
  destruct (resume_while_stopped_behaviour initialState ApiResolved
              eq_refl eq_refl) as [Htoggle [_ [Hflag _]]].
  split; [exact Htoggle | exact (Hflag eq_refl)].
Defined.

(** ** C5: [nextTrack] at the end of the queue without repeat *)

(** C5: with shuffle off and repeat mode none, [nextTrack] with the cursor
    on the last index of a non-empty queue selects nothing and returns the
    store as it was, whatever the bridge would have answered. *)
Theorem next_at_end_without_repeat :
  forall (s : AudioState) (api : ElectronCall) (draws : list Q),
    shuffle s = false -> repeatMode s = "none" -> queue s <> [] ->
    currentQueueIndex s = len (queue s) - 1 ->
    nextTrack_selection draws s = Nothing /\
    nextTrack api draws s = Some s.
Proof.
  intros s api draws Hsh Hrep Hq Hcur.
  assert (Hsel : nextTrack_selection draws s = Nothing).
  { unfold nextTrack_selection. rewrite Hsh, Hrep, Hcur.
    destruct (len (queue s) =? 0) eqn:E; [reflexivity |].
    simpl. replace (len (queue s) - 1 + 1 >=? len (queue s)) with true.
    - reflexivity.
    - symmetry. apply Z.geb_le. lia. }
  split; [exact Hsel |]. unfold nextTrack. rewrite Hsel. reflexivity.
Qed.

Lemma next_at_end_without_repeat_witness :
  nextTrack ApiResolved []
    (with_currentQueueIndex 2 (with_queue [trackA; trackB; trackC] initialState))
  = Some (with_currentQueueIndex 2
            (with_queue [trackA; trackB; trackC] initialState)).
Proof.
  apply (next_at_end_without_repeat
           (with_currentQueueIndex 2
              (with_queue [trackA; trackB; trackC] initialState))
           ApiResolved []).
  - reflexivity.
  - reflexivity.
  - simpl. discriminate.
  - reflexivity.
Defined.

(** ** C8: adding a track that is already queued *)

(** C8: when the queue already holds a track with the identity of the one
    being added, the ADD_TO_QUEUE action, and with it the [addToQueue]
    callback, returns the store unchanged in every field. *)
Theorem add_existing_track_is_noop :
  forall (s : AudioState) (t : Track),
    (exists queued, In queued (queue s) /\ id queued = id t) ->
    audioReducer s (ADD_TO_QUEUE t) = s /\ addToQueue (Some t) s = s.
Proof.
  intros s t Hdup. apply some_same_id_true in Hdup.
  unfold addToQueue, dispatch. simpl. rewrite Hdup. split; reflexivity.
Qed.

Lemma add_existing_track_is_noop_witness :
  addToQueue (Some (mkTrack "a" "/other/copy.mp3" None))
    (with_currentQueueIndex 1 (with_queue [trackA; trackB] initialState))
  = with_currentQueueIndex 1 (with_queue [trackA; trackB] initialState).
Proof.
  apply (add_existing_track_is_noop
           (with_currentQueueIndex 1 (with_queue [trackA; trackB] initialState))
           (mkTrack "a" "/other/copy.mp3" None)).
  exists trackA. split; [left; reflexivity | reflexivity].
Defined.

(** ** C9: pausing twice *)

(** C9: [pausePlayback] is idempotent. Two pauses met by the same bridge
    outcome leave the store exactly as one pause does; and on a store whose
    playing flag is already down a further pause changes nothing when the
    bridge call does not reject, and nothing but the error field when it
    does, so the transport state stays what it was (paused when a track is
    bound). The callback is total: it never throws. *)
Theorem pause_twice_same_as_once :
  (forall (s : AudioState) (api : ElectronCall),
     pausePlayback api (pausePlayback api s) = pausePlayback api s) /\
  (forall (s : AudioState) (api api' : ElectronCall),
     accepted api = true ->
     isPlaying (pausePlayback api s) = false /\
     with_error (error (pausePlayback api s))
       (pausePlayback api' (pausePlayback api s)) = pausePlayback api s /\
     transport (pausePlayback api' (pausePlayback api s)) =
     transport (pausePlayback api s) /\
     (accepted api' = true ->
      pausePlayback api' (pausePlayback api s) = pausePlayback api s)) /\
  (forall (s : AudioState) (api : ElectronCall) (t : Track),
     accepted api = true -> currentTrack s = Some t ->
     transport (pausePlayback api s) = paused).
Proof.
  split; [| split].
  - intros s api. destruct s, api; reflexivity.
  - intros s api api' Hacc.
    destruct s, api, api'; simpl in *; try discriminate;
      repeat split; try reflexivity; intro H; discriminate H.
  - intros s api t Hacc Ht.
    destruct api; simpl in *; try discriminate;
      unfold transport; simpl; rewrite Ht; reflexivity.
Qed.

Lemma pause_twice_same_as_once_witness :
  pausePlayback ApiResolved
    (pausePlayback ApiResolved
       (with_isPlaying true (with_currentTrack (Some trackA) initialState)))
  = pausePlayback ApiResolved
      (with_isPlaying true (with_currentTrack (Some trackA) initialState)) /\
  transport
    (pausePlayback ApiResolved
       (with_isPlaying true (with_currentTrack (Some trackA) initialState)))
  = paused.
Proof.
  destruct pause_twice_same_as_once as [_ [Hsecond Hpaused]].
  split.
  - apply (Hsecond _ ApiResolved ApiResolved eq_refl). reflexivity.
  - apply (Hpaused _ ApiResolved trackA); reflexivity.
Defined.

(** ** C3: the cursor invariant under the queue operations *)

(** C3, as worded, fails for set: the SET_QUEUE action stores a supplied
    start index without checking it against the new queue. *)
Lemma queue_operations_keep_cursor_refuted :
  ~ (forall (s : AudioState) (a : Action),
        queue_invariant s -> is_queue_operation a = true ->
        queue_invariant (audioReducer s a)).
Proof.
  intro H.
  specialize (H initialState (SET_QUEUE [trackA] (Some 5)) eq_refl eq_refl).
  vm_compute in H. discriminate H.
Qed.

Lemma removeFromQueue_fields (index : Z) (s : AudioState) :
  let newQueue := filter_other_index 0 index (queue s) in
  let nextIndex :=
    if len newQueue =? 0 then -1
    else Math_min (currentQueueIndex s) (len newQueue - 1) in
  queue (removeFromQueue index s) = newQueue /\
  currentQueueIndex (removeFromQueue index s) = nextIndex /\
  currentTrack (removeFromQueue index s) =
    (if nextIndex >=? 0 then at_index newQueue nextIndex else None).
Proof. destruct s; simpl. repeat split. Qed.

Lemma dispatch_leaves_queue (action : Action) (s : AudioState) :
  leaves_queue action = true ->
  queue (dispatch action s) = queue s /\
  currentQueueIndex (dispatch action s) = currentQueueIndex s.
Proof. destruct action; simpl; intro H; try discriminate H; split; reflexivity. Qed.

Lemma invariant_frame (action : Action) (s : AudioState) :
  leaves_queue action = true ->
  queue_invariant s -> queue_invariant (dispatch action s).
Proof.
  intros Hl Hinv. unfold queue_invariant.
  destruct (dispatch_leaves_queue action s Hl) as [-> ->]. exact Hinv.
Qed.

Lemma playTrack_commit_keeps_cursor (t : Track) (s : AudioState) :
  queue_invariant s ->
  let existingIndex := findIndex_same_id (queue s) t in
  let queuePayload :=
    if existingIndex =? -1 then (queue s ++ [t])%list else queue s in
  let targetIndex :=
    if existingIndex =? -1 then len queuePayload - 1 else existingIndex in
  queue_invariant
    (if existingIndex =? -1
     then dispatch (SET_QUEUE queuePayload (Some targetIndex)) s
     else dispatch (SET_QUEUE_INDEX targetIndex) s).
Proof.
  intros Hinv. cbv zeta. unfold findIndex_same_id, queue_invariant.
  destruct (findIndex_from_range (queue s) t 0) as [Hnone | Hfound].
  - rewrite Hnone. simpl. apply cursor_ok_spec. right. split.
    + destruct (queue s); discriminate.
    + rewrite len_app_one. pose proof (len_nonneg (queue s)). lia.
  - destruct (findIndex_from 0 (queue s) t =? -1) eqn:E.
    + apply Z.eqb_eq in E. lia.
    + simpl. apply cursor_ok_spec. right. split; [| lia].
      intro Hq. rewrite Hq in Hfound. unfold len in Hfound. simpl in Hfound. lia.
Qed.

Lemma playTrack_keeps_cursor (api : ElectronCall) (track : option Track)
  (s : AudioState) :
  queue_invariant s -> queue_invariant (playTrack api track s).
Proof.
  intro Hinv. unfold playTrack.
  destruct track as [t |]; [| exact Hinv].
  destruct (path t =? "")%string; [exact Hinv |].
  destruct (loading s); [exact Hinv |].
  match goal with |- context [if ?c then s else _] => destruct c end;
    [exact Hinv |].
  apply invariant_frame; [reflexivity |].
  assert (Hprep : queue_invariant
                    (dispatch (SET_LOADING true) (dispatch (SET_ERROR None) s)))
    by (repeat (apply invariant_frame; [reflexivity |]); exact Hinv).
  destruct api.
  - repeat (apply invariant_frame; [reflexivity |]).
    exact (playTrack_commit_keeps_cursor t _ Hprep).
  - repeat (apply invariant_frame; [reflexivity |]).
    exact (playTrack_commit_keeps_cursor t _ Hprep).
  - apply invariant_frame; [reflexivity | exact Hprep].
Qed.

(** C3 (amended): add, remove and clear keep the cursor invariant, and so
    does set when the start index is left out or is valid for the new queue
    (the reducer stores a supplied start index unchecked); both callers of
    set, [playTrack] and [removeFromQueue], supply a valid one. After
    [removeFromQueue] the cursor is the old cursor clamped to the new last
    index and the track there is the current track, or the cursor is -1 with
    no current track when the queue has become empty. *)
Theorem queue_operations_keep_cursor :
  forall (s : AudioState),
    queue_invariant s ->
    (forall payload, queue_invariant (audioReducer s (SET_QUEUE payload None))) /\
    (forall payload start,
        cursor_ok payload start = true ->
        queue_invariant (audioReducer s (SET_QUEUE payload (Some start)))) /\
    (forall t, queue_invariant (audioReducer s (ADD_TO_QUEUE t))) /\
    (forall index, queue_invariant (audioReducer s (REMOVE_FROM_QUEUE index))) /\
    queue_invariant (audioReducer s CLEAR_QUEUE) /\
    (forall api track, queue_invariant (playTrack api track s)) /\
    (forall index,
        queue_invariant (removeFromQueue index s) /\
        (queue (removeFromQueue index s) = [] ->
         currentQueueIndex (removeFromQueue index s) = -1 /\
         currentTrack (removeFromQueue index s) = None) /\
        (queue (removeFromQueue index s) <> [] ->
         currentQueueIndex (removeFromQueue index s) =
           Z.min (currentQueueIndex s) (len (queue (removeFromQueue index s)) - 1) /\
         exists t,
           at_index (queue (removeFromQueue index s))
                    (currentQueueIndex (removeFromQueue index s)) = Some t /\
           currentTrack (removeFromQueue index s) = Some t)).
Proof.
  intros s Hinv.
  assert (Hspec := proj1 (cursor_ok_spec _ _) Hinv).
  repeat apply conj.
  - intro payload. unfold queue_invariant. destruct s; simpl.
    unfold cursor_ok. destruct (len payload =? 0) eqn:E.
    + apply Z.eqb_eq in E. rewrite E. reflexivity.
    + apply Z.eqb_neq in E. pose proof (len_nonneg payload).
      replace (len payload >? 0) with true
        by (symmetry; apply Z.gtb_lt; lia).
      apply andb_true_iff. split; [reflexivity | apply Z.ltb_lt; lia].
  - intros payload start Hok. unfold queue_invariant. destruct s; simpl.
    exact Hok.
  - intro t. unfold queue_invariant. simpl.
    destruct (some_same_id (queue s) t); [exact Hinv |].
    destruct s; simpl in *. apply cursor_ok_spec. right.
    split; [destruct queue0; discriminate |].
    rewrite len_app_one. destruct Hspec as [[Hq Hc] | [Hq Hc]].
    + subst. simpl. unfold len. simpl. lia.
    + destruct (len queue0 =? 0) eqn:E.
      * apply Z.eqb_eq in E. apply len_nil_iff in E. contradiction.
      * lia.
  - intro index. unfold queue_invariant.
    pose proof (filter_other_index_len (queue s) 0 index) as Hle.
    destruct s; simpl in *.
    set (newQueue := filter_other_index 0 index queue0) in *.
    pose proof (len_nonneg newQueue) as Hnn.
    apply cursor_ok_spec.
    destruct (len newQueue =? 0) eqn:E.
    + apply Z.eqb_eq in E. apply len_nil_iff in E. left. auto.
    + apply Z.eqb_neq in E. right.
      split; [intro Hq; apply E; apply len_nil_iff; exact Hq |].
      destruct Hspec as [[Hq Hc] | [Hq Hc]].
      * exfalso. apply E. subst newQueue. rewrite Hq. reflexivity.
      * destruct (currentQueueIndex0 >=? len newQueue) eqn:G.
        -- lia.
        -- rewrite Z.geb_leb in G. apply Z.leb_gt in G. lia.
  - reflexivity.
  - intros api track. apply playTrack_keeps_cursor. exact Hinv.
  - intro index.
    destruct (removeFromQueue_fields index s) as [Hq' [Hc' Ht']].
    cbv zeta in Hq', Hc', Ht'.
    pose proof (filter_other_index_len (queue s) 0 index) as Hle.
    rewrite <- Hq' in *. clear Hq'.
    set (s' := removeFromQueue index s) in *.
    pose proof (len_nonneg (queue s')) as Hnn.
    assert (Hcases :
      (queue s' = [] /\ currentQueueIndex s' = -1 /\ currentTrack s' = None) \/
      (queue s' <> [] /\
       currentQueueIndex s' = Z.min (currentQueueIndex s) (len (queue s') - 1) /\
       0 <= currentQueueIndex s' < len (queue s') /\
       currentTrack s' = at_index (queue s') (currentQueueIndex s'))).
    { destruct (len (queue s') =? 0) eqn:E.
      - left. apply Z.eqb_eq in E. apply len_nil_iff in E.
        rewrite Ht', Hc'. simpl. auto.
      - right. apply Z.eqb_neq in E.
        assert (Hne : queue s' <> [])
          by (intro Hq; apply E; apply len_nil_iff; exact Hq).
        unfold Math_min in *.
        assert (Hrange : 0 <= currentQueueIndex s' < len (queue s')).
        { rewrite Hc'. destruct Hspec as [[Hq Hc] | [Hq Hc]].
          - rewrite Hq in Hle. change (len (@nil Track)) with 0 in Hle. lia.
          - lia. }
        repeat split; try exact Hne; try exact Hc'; try lia.
        rewrite Ht'. rewrite <- Hc'.
        replace (currentQueueIndex s' >=? 0) with true
          by (symmetry; apply Z.geb_le; lia).
        reflexivity. }
    repeat apply conj.
    + apply cursor_ok_spec.
      destruct Hcases as [[Hq [Hc _]] | [Hq [_ [Hr _]]]]; [left | right]; auto.
    + intro Hq.
      destruct Hcases as [[_ [Hc Ht]] | [Hne _]]; [auto | contradiction].
    + intro Hne.
      destruct Hcases as [[Hq _] | [_ [Hc [Hr Ht]]]]; [contradiction |].
      split; [exact Hc |].
      destruct (at_index_in_range (queue s') (currentQueueIndex s') Hr)
        as [t Hat].
      exists t. split; [exact Hat | rewrite Ht; exact Hat].
Qed.

Lemma queue_operations_keep_cursor_witness :
  currentQueueIndex
    (removeFromQueue 2
       (with_currentTrack (Some trackC)
          (with_currentQueueIndex 2
             (with_queue [trackA; trackB; trackC] initialState)))) = 1 /\
  currentTrack
    (removeFromQueue 0
       (with_currentTrack (Some trackA)
          (with_currentQueueIndex 0 (with_queue [trackA] initialState)))) = None.
Proof.
  split.
  - pose proof (queue_operations_keep_cursor
                  (with_currentTrack (Some trackC)
                     (with_currentQueueIndex 2
                        (with_queue [trackA; trackB; trackC] initialState)))
                  eq_refl) as H.
    destruct H as [_ [_ [_ [_ [_ [_ H]]]]]].
    destruct (H 2) as [_ [_ Hclamp]].
    destruct Hclamp as [Hc _]; [simpl; discriminate | exact Hc].
  - pose proof (queue_operations_keep_cursor
                  (with_currentTrack (Some trackA)
                     (with_currentQueueIndex 0 (with_queue [trackA] initialState)))
                  eq_refl) as H.
    destruct H as [_ [_ [_ [_ [_ [_ H]]]]]].
    destruct (H 0) as [_ [Hempty _]].
    destruct Hempty as [_ Ht]; [reflexivity | exact Ht].
Defined.

(** ** C4: sequential advance with repeat mode all *)

Lemma select_at_in_range (q : list Track) (i : Z) :
  0 <= i < len q -> exists t, at_index q i = Some t /\ select_at q i = Selected i t.
Proof.
  intro H. destruct (at_index_in_range q i H) as [t Ht].
  exists t. split; [exact Ht |]. unfold select_at. rewrite Ht. reflexivity.
Qed.






(** ** C6: the shuffle branch of [nextTrack] *)

Lemma random_index_range (r : Q) (n : Z) :
  unit_draw r -> 0 < n -> 0 <= random_index r n < n.
Proof.
  intros [Hlo Hhi] Hn. unfold random_index.
  assert (Hn' : (inject_Z 0 < inject_Z n)%Q) by (rewrite <- Zlt_Qlt; exact Hn).
  change (inject_Z 0) with 0%Q in Hn'.
  split.
  - change 0 with (Qfloor 0). apply Qfloor_resp_le.
    apply Qmult_le_0_compat; [exact Hlo | apply Qlt_le_weak; exact Hn'].
  - rewrite Zlt_Qlt.
    apply Qle_lt_trans with (y := (r * inject_Z n)%Q); [apply Qfloor_le |].
    setoid_replace (inject_Z n) with (1 * inject_Z n)%Q at 2 by ring.
    apply Qmult_lt_compat_r; assumption.
Qed.

Lemma shuffle_pick_leaves (draws : list Q) (n cursor : Z) :
  0 < n ->
  Forall unit_draw draws ->
  Exists (fun r => random_index r n <> cursor) draws ->
  exists i, shuffle_pick draws n cursor = Some i /\ i <> cursor /\ 0 <= i < n.
Proof.
  intros Hn Hunit Hex.
  induction draws as [| r later IH]; [inversion Hex |].
  inversion Hunit as [| r' l Hr Hlater]; subst.
  simpl. destruct (random_index r n =? cursor) eqn:E.
  - apply Z.eqb_eq in E.
    inversion Hex as [r' l Hne | r' l Hrest]; subst; [contradiction |].
    exact (IH Hlater Hrest).
  - apply Z.eqb_neq in E. exists (random_index r n).
    split; [reflexivity |]. split; [exact E |].
    apply random_index_range; assumption.
Qed.

(** C6, as worded, fails: repeat mode one is tested before shuffle, so with
    shuffle on and two queued tracks [nextTrack] can select the track under
    the cursor. *)
Lemma shuffle_never_current_refuted :
  ~ (forall (s : AudioState) (draws : list Q) (i : Z) (t : Track),
        shuffle s = true -> 1 < len (queue s) ->
        nextTrack_selection draws s = Selected i t ->
        i <> currentQueueIndex s).
Proof.
  intro H.
  apply (H (with_shuffle true
              (with_repeatMode "one"
                 (with_currentQueueIndex 0
                    (with_queue [trackA; trackB] initialState))))
           [1 # 2] 0 trackA); reflexivity.
Qed.

(** C6 (amended): with shuffle on and a repeat mode other than one, on a
    queue of more than one track [nextTrack] selects, for every sequence of
    random draws that eventually leaves the cursor, a queued track at an
    index different from the cursor, and moves there when the bridge
    accepts; on a queue of exactly one track, with the cursor on it, it
    selects that only track again. *)
Theorem shuffle_selects_other_index :
  forall (s : AudioState) (draws : list Q),
    shuffle s = true -> repeatMode s <> "one" ->
    (1 < len (queue s) ->
     Forall unit_draw draws ->
     Exists (fun r => random_index r (len (queue s)) <> currentQueueIndex s) draws ->
     exists i t,
       i <> currentQueueIndex s /\
       at_index (queue s) i = Some t /\
       nextTrack_selection draws s = Selected i t /\
       forall api, accepted api = true ->
         exists s', nextTrack api draws s = Some s' /\
                    currentQueueIndex s' = i /\ currentTrack s' = Some t) /\
    (forall only,
       queue s = [only] -> currentQueueIndex s = 0 ->
       nextTrack_selection draws s = Selected 0 only /\
       forall api, accepted api = true ->
         exists s', nextTrack api draws s = Some s' /\
                    currentQueueIndex s' = 0 /\ currentTrack s' = Some only).
Proof.
  intros s draws Hsh Hrep.
  assert (Hone : (repeatMode s =? "one")%string = false).
  { apply String.eqb_neq. exact Hrep. }
  assert (Hcommit : forall i t api,
             nextTrack_selection draws s = Selected i t ->
             accepted api = true ->
             exists s', nextTrack api draws s = Some s' /\
                        currentQueueIndex s' = i /\ currentTrack s' = Some t).
  { intros i t api Hsel Hacc. exists (start_selected api i t s).
    unfold nextTrack. rewrite Hsel.
    rewrite (start_selected_accepted api i t s Hacc).
    destruct s; simpl. repeat split. }
  split.
  - intros Hlen Hunit Hex.
    destruct (shuffle_pick_leaves draws (len (queue s)) (currentQueueIndex s))
      as [i [Hpick [Hne Hrange]]]; try assumption; [lia |].
    destruct (select_at_in_range (queue s) i Hrange) as [t [Hat Hsel]].
    assert (Hselection : nextTrack_selection draws s = Selected i t).
    { unfold nextTrack_selection. rewrite Hone, Hsh, Hpick.
      replace (len (queue s) =? 0) with false
        by (symmetry; apply Z.eqb_neq; lia).
      replace (len (queue s) >? 1) with true
        by (symmetry; apply Z.gtb_lt; lia).
      exact Hsel. }
    exists i, t. repeat split; auto.
  - intros only Hq Hc.
    assert (Hselection : nextTrack_selection draws s = Selected 0 only).
    { unfold nextTrack_selection. rewrite Hone, Hsh, Hq, Hc. reflexivity. }
    split; [exact Hselection | intros api Hacc; apply Hcommit; assumption].
Qed.

Lemma shuffle_selects_other_index_witness :
  exists i t,
    i <> 1 /\
    nextTrack_selection [1 # 2; 1 # 10]
      (with_shuffle true
         (with_currentQueueIndex 1
            (with_queue [trackA; trackB; trackC] initialState)))
    = Selected i t.
Proof.
  destruct (shuffle_selects_other_index
              (with_shuffle true
                 (with_currentQueueIndex 1
                    (with_queue [trackA; trackB; trackC] initialState)))
              [1 # 2; 1 # 10]) as [Hmany _].
  - reflexivity.
  - simpl. discriminate.
  - destruct Hmany as [i [t [Hne [_ [Hsel _]]]]].
    + vm_compute. reflexivity.
    + repeat constructor; vm_compute; try reflexivity; discriminate.
    + apply Exists_cons_tl. apply Exists_cons_hd. vm_compute. discriminate.
    + exists i, t. split; [exact Hne | exact Hsel].
Defined.

(** ** C7: a playback_state event announcing a stop *)

(** C7, as worded, fails: a stop event that names a track of the library
    binds that track instead of clearing the current one. *)
Lemma stop_event_clears_track_refuted :
  ~ (forall (Number_toString : Q -> string) (payload : list (string * json))
            (s : AudioState),
        get_field "state" payload = Some (JStr "stopped") ->
        currentTrack (handlePlaybackEvent Number_toString payload s) = None /\
        progress (handlePlaybackEvent Number_toString payload s) = 0%Q).
Proof.
  intro H.
  destruct (H sample_number_text
              [("state", JStr "stopped"); ("track_id", JStr "a")]
              (with_library [trackA; trackB] initialState) eq_refl)
    as [Htrack _].
  vm_compute in Htrack. discriminate Htrack.
Qed.

Lemma lowered_field_of_string (Number_toString : Q -> string)
  (key : string) (payload : list (string * json)) (text : string) :
  get_field key payload = Some (JStr text) -> text <> "" ->
  lowered_field Number_toString key payload = toLowerCase text.
Proof.
  intros Hget Hne. unfold lowered_field. rewrite Hget. simpl.
  destruct (text =? "")%string eqn:E; [| reflexivity].
  apply String.eqb_eq in E. contradiction.
Qed.

(** C7 (amended): a playback_state event whose state reads stopped, in any
    letter case, lowers the playing flag and resets progress to 0 from any
    store; the current track becomes whatever [findTrack] resolves from the
    track id and path carried by the event, so it is cleared exactly when
    the event names no track of the library, and the transport is then
    stopped. *)
Theorem stop_event_resets_transport :
  forall (Number_toString : Q -> string) (payload : list (string * json))
         (s : AudioState) (text : string),
    get_field "state" payload = Some (JStr text) ->
    toLowerCase text = "stopped" ->
    let s' := handlePlaybackEvent Number_toString payload s in
    let named :=
      findTrack (library s)
        (first_truthy (get_field "track_id" payload) (get_field "trackId" payload))
        (first_truthy (get_field "track_path" payload)
                      (get_field "trackPath" payload)) in
    isPlaying s' = false /\
    progress s' = 0%Q /\
    currentTrack s' = named /\
    (named = None -> currentTrack s' = None /\ transport s' = stopped) /\
    (get_field "track_id" payload = None ->
     get_field "trackId" payload = None ->
     get_field "track_path" payload = None ->
     get_field "trackPath" payload = None ->
     currentTrack s' = None).
Proof.
  intros nts payload s text Hget Hlow s' named.
  assert (Hne : text <> "") by (intro Hempty; subst text; discriminate Hlow).
  assert (Hfields : isPlaying s' = false /\ progress s' = 0%Q /\
                    currentTrack s' = named).
  { subst s' named. unfold handlePlaybackEvent.
    rewrite (lowered_field_of_string nts "state" payload text Hget Hne), Hlow.
    cbv zeta. simpl String.eqb. cbv iota.
    match goal with
    | |- context [match ?d with Some _ => _ | None => _ end] =>
        match type of d with option Q => destruct d end
    end; simpl; repeat split.
  }
  destruct Hfields as [Hplay [Hprog Htrack]].
  split; [exact Hplay |]. split; [exact Hprog |]. split; [exact Htrack |].
  split.
  - intros Hnone. split; [rewrite Htrack; exact Hnone |].
    unfold transport. rewrite Hplay, Htrack, Hnone. reflexivity.
  - intros H1 H2 H3 H4. rewrite Htrack. subst named.
    rewrite H1, H2, H3, H4. reflexivity.
Qed.

Lemma stop_event_resets_transport_witness :
  currentTrack
    (handlePlaybackEvent sample_number_text [("state", JStr "Stopped")]
       (with_progress (42 # 1)
          (with_isPlaying true
             (with_currentTrack (Some trackA)
                (with_library [trackA; trackB] initialState))))) = None.
Proof.
  destruct (stop_event_resets_transport sample_number_text
              [("state", JStr "Stopped")]
              (with_progress (42 # 1)
                 (with_isPlaying true
                    (with_currentTrack (Some trackA)
                       (with_library [trackA; trackB] initialState))))
              "Stopped" eq_refl eq_refl) as [_ [_ [_ [_ Hclear]]]].
  apply Hclear; reflexivity.
Defined.

(** ** C10: messages the event handler ignores *)

(** C10: a message that [JSON.parse] rejects, or whose parsed value carries
    a type tag other than the four handled ones (or none at all), leaves the
    whole store as it was; [handleEventMessage] is total, so nothing is
    thrown. *)
Theorem unhandled_message_is_ignored :
  forall (JSON_parse : string -> option json) (Number_toString : Q -> string)
         (load : LibraryLoad) (rawMessage : string) (s : AudioState),
    (JSON_parse rawMessage = None \/
     exists parsed,
       JSON_parse rawMessage = Some parsed /\
       event_type parsed <> Some (JStr "playback_state") /\
       event_type parsed <> Some (JStr "volume_changed") /\
       event_type parsed <> Some (JStr "library_scan") /\
       event_type parsed <> Some (JStr "library_updated")) ->
    handleEventMessage JSON_parse Number_toString load rawMessage s = s.
Proof.
  intros parse nts load raw s [Hbad | [parsed [Hparse [H1 [H2 [H3 H4]]]]]];
    unfold handleEventMessage.
  - rewrite Hbad. reflexivity.
  - rewrite Hparse.
    destruct (event_type parsed) as [[| b | q | type | items | fields] |];
      try reflexivity.
    destruct (type =? "playback_state")%string eqn:E1;
      [apply String.eqb_eq in E1; subst; contradiction |].
    destruct (type =? "volume_changed")%string eqn:E2;
      [apply String.eqb_eq in E2; subst; contradiction |].
    destruct (type =? "library_scan")%string eqn:E3;
      [apply String.eqb_eq in E3; subst; contradiction |].
    destruct (type =? "library_updated")%string eqn:E4;
      [apply String.eqb_eq in E4; subst; contradiction |].
    reflexivity.
Qed.

Lemma unhandled_message_is_ignored_witness :
  handleEventMessage sample_parse sample_number_text (LoadResolved [trackA])
    "not json at all" (with_isPlaying true initialState)
  = with_isPlaying true initialState /\
  handleEventMessage sample_parse sample_number_text (LoadResolved [trackA])
    heartbeat_text (with_isPlaying true initialState)
  = with_isPlaying true initialState /\
  handleEventMessage sample_parse sample_number_text (LoadResolved [trackA])
    "[1]" (with_isPlaying true initialState)
  = with_isPlaying true initialState.
Proof.
  split; [| split].
  - apply unhandled_message_is_ignored. left. reflexivity.
  - apply unhandled_message_is_ignored. right.
    exists (JObj [("type", JStr "heartbeat")]).
    split; [reflexivity |]. repeat split; discriminate.
  - apply unhandled_message_is_ignored. right.
    exists (JArr [JNum 1]).
    split; [reflexivity |]. repeat split; discriminate.
Defined.

(** ** The scenario of the design notes, run on the model *)

Example scenario_next_wraps_to_first :
  nextTrack_selection []
    (with_repeatMode "all"
       (with_currentQueueIndex 2
          (with_queue [trackA; trackB; trackC] initialState)))
  = Selected 0 trackA.
Proof. reflexivity. Qed.

Example scenario_previous_wraps_to_last :
  previousTrack_selection
    (with_repeatMode "all"
       (with_currentQueueIndex 0
          (with_queue [trackA; trackB; trackC] initialState)))
  = Selected 2 trackC.
Proof. reflexivity. Qed.

Example scenario_repeat_one_stays :
  nextTrack_selection [1 # 3]
    (with_shuffle true
       (with_repeatMode "one"
          (with_currentQueueIndex 1
             (with_queue [trackA; trackB; trackC] initialState))))
  = Selected 1 trackB.
Proof. reflexivity. Qed.

Example scenario_shuffle_still_drawing :
  nextTrack ApiResolved [1 # 2]
    (with_shuffle true
       (with_currentQueueIndex 1
          (with_queue [trackA; trackB; trackC] initialState)))
  = None.
Proof. reflexivity. Qed.

(** * Further properties of the provider *)

(** ** Socket events *)

Lemma same_queue_settings_refl (s : AudioState) : same_queue_settings s s.
Proof. unfold same_queue_settings. repeat split. Qed.

Lemma same_queue_settings_trans (s1 s2 s3 : AudioState) :
  same_queue_settings s1 s2 -> same_queue_settings s2 s3 ->
  same_queue_settings s1 s3.
Proof.
  unfold same_queue_settings.
  intros [A1 [A2 [A3 [A4 A5]]]] [B1 [B2 [B3 [B4 B5]]]].
  repeat split; congruence.
Qed.

Lemma apply_volume_settings (payload : list (string * json)) (s : AudioState) :
  same_queue_settings s (apply_volume payload s).
Proof.
  unfold apply_volume.
  destruct (get_field "volume" payload) as [[| b | q | t | items | fields] |];
    destruct s; unfold same_queue_settings; simpl; repeat split.
Qed.

Lemma handlePlaybackEvent_settings (Number_toString : Q -> string)
  (payload : list (string * json)) (s : AudioState) :
  same_queue_settings s (handlePlaybackEvent Number_toString payload s).
Proof.
  unfold handlePlaybackEvent. cbv zeta.
  apply same_queue_settings_trans with (s2 := apply_volume payload s);
    [apply apply_volume_settings |].
  generalize (apply_volume payload s) as s1. intro s1.
  repeat match goal with
         | |- context [if ?c then _ else _] => destruct c
         | |- context [match ?d with Some _ => _ | None => _ end] => destruct d
         end;
    destruct s1; unfold same_queue_settings; simpl; repeat split.
Qed.

Lemma loadLibrary_settings (showSpinner : bool) (load : LibraryLoad)
  (s : AudioState) :
  same_queue_settings s (loadLibrary showSpinner load s).
Proof.
  destruct load, showSpinner, s; unfold same_queue_settings; simpl;
    repeat split.
Qed.

Lemma handleEventMessage_settings
  (JSON_parse : string -> option json) (Number_toString : Q -> string)
  (load : LibraryLoad) (rawMessage : string) (s : AudioState) :
  same_queue_settings s
    (handleEventMessage JSON_parse Number_toString load rawMessage s).
Proof.
  revert JSON_parse Number_toString load rawMessage s.
  intros parse nts load raw s. unfold handleEventMessage.
  destruct (parse raw) as [parsed |]; [| apply same_queue_settings_refl].
  destruct (event_type parsed) as [[| b | q | type | items | fields] |];
    try apply same_queue_settings_refl.
  destruct (type =? "playback_state")%string;
    [apply handlePlaybackEvent_settings |].
  destruct (type =? "volume_changed")%string;
    [apply apply_volume_settings |].
  destruct (type =? "library_scan")%string.
  { unfold handleLibraryScanEvent. cbv zeta.
    repeat match goal with
           | |- context [if ?c then _ else _] => destruct c
           end;
      destruct s; unfold same_queue_settings; simpl; repeat split. }
  destruct (type =? "library_updated")%string;
    [apply loadLibrary_settings | apply same_queue_settings_refl].
Qed.

(** X1: whatever arrives on the socket, valid JSON or not and of whatever
    type, the event handler never alters the queue, the cursor, the repeat
    mode, the shuffle flag or the playlists. *)
Theorem socket_message_keeps_queue :
  forall (JSON_parse : string -> option json) (Number_toString : Q -> string)
         (load : LibraryLoad) (rawMessage : string) (s : AudioState),
    same_queue_settings s
      (handleEventMessage JSON_parse Number_toString load rawMessage s).
Proof. intros. apply handleEventMessage_settings. Qed.



(** X3: a playback_state event reading playing or paused (in any letter
    case) sets the playing flag accordingly and never touches progress; it
    binds the library track the event names, and when the event names none
    the current track stays bound, unlike for a stop. *)
Theorem playing_paused_event_keeps_progress :
  forall (Number_toString : Q -> string) (payload : list (string * json))
         (s : AudioState) (text : string) (flag : bool),
    get_field "state" payload = Some (JStr text) ->
    toLowerCase text = (if flag then "playing" else "paused") ->
    let s' := handlePlaybackEvent Number_toString payload s in
    let named :=
      findTrack (library s)
        (first_truthy (get_field "track_id" payload) (get_field "trackId" payload))
        (first_truthy (get_field "track_path" payload)
                      (get_field "trackPath" payload)) in
    isPlaying s' = flag /\
    progress s' = progress s /\
    currentTrack s' = match named with
                      | Some found => Some found
                      | None => currentTrack s
                      end.
Proof.
  intros nts payload s text flag Hget Hlow s' named.
  assert (Hne : text <> "").
  { intro Hempty. subst text. destruct flag; discriminate Hlow. }
  subst s' named. unfold handlePlaybackEvent.
  rewrite (lowered_field_of_string nts "state" payload text Hget Hne), Hlow.
  cbv zeta.
  assert (Hvol : progress (apply_volume payload s) = progress s /\
                 currentTrack (apply_volume payload s) = currentTrack s).
  { unfold apply_volume.
    destruct (get_field "volume" payload) as [[| b | q | t | items | fields] |];
      destruct s; simpl; split; reflexivity. }
  destruct Hvol as [Hp Hc]. revert Hp Hc.
  generalize (apply_volume payload s) as s1. intros s1 Hp Hc.
  destruct flag; simpl String.eqb; cbv iota;
    destruct (findTrack (library s) _ _) as [found |];
    repeat match goal with
           | |- context [match ?d with Some _ => _ | None => _ end] =>
               match type of d with option Q => destruct d end
           end;
    destruct s1; simpl in *; repeat split; assumption.
Qed.

Lemma playing_paused_event_keeps_progress_witness :
  progress
    (handlePlaybackEvent sample_number_text [("state", JStr "PAUSED")]
       (with_progress (42 # 1)
          (with_isPlaying true (with_currentTrack (Some trackA) initialState))))
  = 42 # 1.
Proof.
  destruct (playing_paused_event_keeps_progress sample_number_text
              [("state", JStr "PAUSED")]
              (with_progress (42 # 1)
                 (with_isPlaying true
                    (with_currentTrack (Some trackA) initialState)))
              "PAUSED" false eq_refl eq_refl) as [_ [Hp _]].
  exact Hp.
Defined.

(** X4: [findTrack] only ever returns a track of the library, one whose id
    or whose path is the string the event carries; the id takes precedence,
    so when some library track has the id carried by the event the result
    has that id; and with neither an id nor a path it finds nothing. *)
Theorem findTrack_sound :
  forall (lib : list Track) (trackId trackPath : json),
    (forall found, findTrack lib trackId trackPath = Some found ->
       In found lib /\
       (trackId = JStr (id found) \/ trackPath = JStr (path found))) /\
    (forall wanted queued,
       trackId = JStr wanted -> wanted <> "" ->
       In queued lib -> id queued = wanted ->
       exists found, findTrack lib trackId trackPath = Some found /\
                     id found = wanted) /\
    (truthy trackId = false -> truthy trackPath = false ->
     findTrack lib trackId trackPath = None).
Proof.
  intros lib trackId trackPath.
  assert (Hsame : forall (value : json) (text : string),
             same_string value text = true -> value = JStr text).
  { intros value text H. destruct value; simpl in H; try discriminate H.
    apply String.eqb_eq in H. subst. reflexivity. }
  repeat apply conj.
  - intros found Hfind. unfold findTrack in Hfind.
    assert (Hpath : (if truthy trackPath
                     then find (fun item => same_string trackPath (path item)) lib
                     else None) = Some found ->
                    In found lib /\ trackPath = JStr (path found)).
    { destruct (truthy trackPath); [| discriminate].
      intro H. apply find_some in H. destruct H as [Hin Hs].
      split; [exact Hin |]. apply Hsame. exact Hs. }
    destruct (truthy trackId).
    + destruct (find (fun item => same_string trackId (id item)) lib)
        as [byId |] eqn:E.
      * injection Hfind as <-. apply find_some in E. destruct E as [Hin Hs].
        split; [exact Hin |]. left. apply Hsame. exact Hs.
      * destruct (Hpath Hfind) as [Hin Hp]. split; [exact Hin | right; exact Hp].
    + destruct (Hpath Hfind) as [Hin Hp]. split; [exact Hin | right; exact Hp].
  - intros wanted queued Hid Hne Hin Hq. unfold findTrack. subst trackId.
    simpl truthy.
    destruct (wanted =? "")%string eqn:E;
      [apply String.eqb_eq in E; contradiction |].
    simpl negb. cbv iota.
    destruct (find (fun item => same_string (JStr wanted) (id item)) lib)
      as [byId |] eqn:F.
    + exists byId. split; [reflexivity |].
      apply find_some in F. destruct F as [_ Hs]. simpl in Hs.
      apply String.eqb_eq in Hs. exact Hs.
    + exfalso. apply (find_none _ _ F) in Hin. simpl in Hin.
      rewrite Hq, String.eqb_refl in Hin. discriminate Hin.
  - intros Hid Hpath. unfold findTrack. rewrite Hid, Hpath. reflexivity.
Qed.

Lemma findTrack_sound_witness :
  exists found,
    findTrack [trackA; trackB] (JStr "b") (JStr "/music/a.flac") = Some found /\
    id found = "b".
Proof.
  destruct (findTrack_sound [trackA; trackB] (JStr "b") (JStr "/music/a.flac"))
    as [_ [Hid _]].
  apply (Hid "b" trackB); [reflexivity | discriminate | | reflexivity].
  right. left. reflexivity.
Defined.

(** ** [playTrack] *)

Lemma findIndex_from_none (q : list Track) (t : Track) (from : Z) :
  findIndex_from from q t = -1 -> 0 <= from -> some_same_id q t = false.
Proof.
  revert from. induction q as [| queued rest IH]; intros from H Hfrom.
  - reflexivity.
  - simpl in *. destruct (id queued =? id t)%string.
    + lia.
    + simpl. apply (IH (from + 1)); [exact H | lia].
Qed.

Lemma findIndex_from_found (q : list Track) (t : Track) (from : Z) :
  findIndex_from from q t <> -1 -> 0 <= from ->
  some_same_id q t = true /\
  exists queued,
    at_index q (findIndex_from from q t - from) = Some queued /\
    id queued = id t.
Proof.
  revert from. induction q as [| queued rest IH]; intros from H Hfrom.
  - simpl in H. congruence.
  - simpl in *. destruct (id queued =? id t)%string eqn:E.
    + split; [reflexivity |]. exists queued. rewrite Z.sub_diag.
      split; [reflexivity | apply String.eqb_eq; exact E].
    + destruct (IH (from + 1) H) as [Hsome [found [Hat Hid]]]; [lia |].
      split; [exact Hsome |]. exists found. split; [| exact Hid].
      destruct (findIndex_from_range rest t (from + 1)) as [Hn | Hr];
        [congruence |].
      unfold at_index in *.
      destruct (findIndex_from (from + 1) rest t - (from + 1) <? 0) eqn:L;
        [apply Z.ltb_lt in L; lia |].
      destruct (findIndex_from (from + 1) rest t - from <? 0) eqn:L';
        [apply Z.ltb_lt in L'; lia |].
      replace (Z.to_nat (findIndex_from (from + 1) rest t - from))
        with (S (Z.to_nat (findIndex_from (from + 1) rest t - (from + 1))))
        by lia.
      exact Hat.
Qed.

Lemma at_index_app_last {A : Type} (l : list A) (x : A) :
  at_index (l ++ [x]) (len l) = Some x.
Proof.
  unfold at_index, len.
  destruct (Z.of_nat (List.length l) <? 0) eqn:E; [apply Z.ltb_lt in E; lia |].
  rewrite Nat2Z.id. rewrite nth_error_app2 by lia.
  rewrite Nat.sub_diag. reflexivity.
Qed.

(** X5: [playTrack] returns the store untouched when it is given no track,
    a track without a path, while the store is loading, or the track that
    is already playing; in every other case, another track playing
    included, a bridge call that rejects leaves no trace but the error
    message: queue, cursor, current track and playing flag are as before. *)
Theorem playTrack_guards_and_rejection :
  forall (api : ElectronCall) (s : AudioState),
    playTrack api None s = s /\
    (forall t,
        path t = "" \/ loading s = true \/
        (isPlaying s = true /\
         exists current, currentTrack s = Some current /\ id current = id t) ->
        playTrack api (Some t) s = s) /\
    (forall t message,
        path t <> "" -> loading s = false ->
        (isPlaying s = false \/ currentTrack s = None \/
         exists current, currentTrack s = Some current /\ id current <> id t) ->
        playTrack (ApiRejected message) (Some t) s = with_error (Some message) s).
Proof.
  intros api s. repeat apply conj.
  - reflexivity.
  - intros t [Hpath | [Hload | [Hplay [current [Hcur Hid]]]]]; unfold playTrack.
    + rewrite Hpath. reflexivity.
    + destruct (path t =? "")%string; [reflexivity |]. rewrite Hload. reflexivity.
    + destruct (path t =? "")%string; [reflexivity |].
      destruct (loading s); [reflexivity |].
      rewrite Hcur, Hplay, Hid, String.eqb_refl. reflexivity.
  - intros t message Hpath Hload Hidle. unfold playTrack.
    destruct (path t =? "")%string eqn:E;
      [apply String.eqb_eq in E; contradiction |].
    rewrite Hload.
    replace (match currentTrack s with
             | Some current => (id current =? id t)%string
             | None => false
             end && isPlaying s)%bool with false.
    + destruct s; simpl in *. subst. reflexivity.
    + symmetry. destruct Hidle as [-> | [-> | [current [-> Hother]]]].
      * apply andb_false_r.
      * reflexivity.
      * apply String.eqb_neq in Hother. rewrite Hother. reflexivity.
Qed.

Lemma playTrack_guards_and_rejection_witness :
  playTrack ApiResolved (Some trackB) (with_loading true initialState)
  = with_loading true initialState /\
  playTrack (ApiRejected "offline") (Some trackB)
    (with_currentQueueIndex 0 (with_queue [trackA] initialState))
  = with_error (Some "offline")
      (with_currentQueueIndex 0 (with_queue [trackA] initialState)).
Proof.
  split.
  - destruct (playTrack_guards_and_rejection ApiResolved
                (with_loading true initialState)) as [_ [Hguard _]].
    apply Hguard. right. left. reflexivity.
  - destruct (playTrack_guards_and_rejection ApiResolved
                (with_currentQueueIndex 0 (with_queue [trackA] initialState)))
      as [_ [_ Hrej]].
    apply Hrej; [discriminate | reflexivity | left; reflexivity].
Defined.

Example playTrack_rejected_while_another_plays :
  playTrack (ApiRejected "offline") (Some trackB)
    (with_isPlaying true
       (with_currentTrack (Some trackA)
          (with_currentQueueIndex 0 (with_queue [trackA] initialState))))
  = with_error (Some "offline")
      (with_isPlaying true
         (with_currentTrack (Some trackA)
            (with_currentQueueIndex 0 (with_queue [trackA] initialState)))).
Proof. reflexivity. Qed.

(** X6: when [playTrack] goes through (a track with a path, store not
    loading, track not already playing, bridge call not rejected) the track
    becomes the current track and plays from progress 0 with its own
    duration, loading and error are cleared, and the cursor lands on a
    queue entry of the same identity: the existing entry when the queue
    already had one, otherwise the track itself, appended at the end. *)
Theorem playTrack_starts_track :
  forall (api : ElectronCall) (t : Track) (s : AudioState),
    accepted api = true ->
    path t <> "" -> loading s = false ->
    (isPlaying s = false \/ currentTrack s = None \/
     exists current, currentTrack s = Some current /\ id current <> id t) ->
    let s' := playTrack api (Some t) s in
    currentTrack s' = Some t /\ isPlaying s' = true /\
    progress s' = 0%Q /\ state_duration s' = duration_or_zero t /\
    loading s' = false /\ error s' = None /\
    (exists queued,
        at_index (queue s') (currentQueueIndex s') = Some queued /\
        id queued = id t) /\
    (some_same_id (queue s) t = true -> queue s' = queue s) /\
    (some_same_id (queue s) t = false ->
     queue s' = (queue s ++ [t])%list /\ currentQueueIndex s' = len (queue s)).
Proof.
  intros api t s Hacc Hpath Hload Hidle s'. subst s'. unfold playTrack.
  destruct (path t =? "")%string eqn:E;
    [apply String.eqb_eq in E; contradiction |].
  rewrite Hload.
  replace (match currentTrack s with
           | Some current => (id current =? id t)%string
           | None => false
           end && isPlaying s)%bool with false.
  2:{ symmetry. destruct Hidle as [-> | [-> | [current [-> Hne]]]].
      - apply andb_false_r.
      - reflexivity.
      - apply String.eqb_neq in Hne. rewrite Hne. reflexivity. }
  cbv zeta. unfold findIndex_same_id.
  destruct (findIndex_from 0 (queue s) t =? -1) eqn:F.
  - apply Z.eqb_eq in F.
    pose proof (findIndex_from_none (queue s) t 0 F (Z.le_refl 0)) as Hnone.
    rewrite len_app_one.
    destruct api; try discriminate Hacc; destruct s; simpl in *;
      (repeat apply conj; try reflexivity;
       [ exists t; split; [| reflexivity];
         replace (len queue0 + 1 - 1) with (len queue0) by lia;
         apply at_index_app_last
       | intro H; congruence
       | intros _; split; [reflexivity | lia] ]).
  - apply Z.eqb_neq in F.
    destruct (findIndex_from_found (queue s) t 0 F (Z.le_refl 0))
      as [Hsome [queued [Hat Hid]]].
    rewrite Z.sub_0_r in Hat.
    destruct api; try discriminate Hacc; destruct s; simpl in *;
      (repeat apply conj; try reflexivity;
       [ exists queued; split; assumption
       | intro H; congruence ]).
Qed.

Lemma playTrack_starts_track_witness :
  queue (playTrack ApiResolved (Some trackC)
           (with_currentQueueIndex 0 (with_queue [trackA; trackB] initialState)))
  = [trackA; trackB; trackC] /\
  currentQueueIndex
    (playTrack ApiResolved (Some trackC)
       (with_currentQueueIndex 0 (with_queue [trackA; trackB] initialState)))
  = 2.
Proof.
  destruct (playTrack_starts_track ApiResolved trackC
              (with_currentQueueIndex 0 (with_queue [trackA; trackB] initialState)))
    as [_ [_ [_ [_ [_ [_ [_ [_ Hnew]]]]]]]].
  - reflexivity.
  - discriminate.
  - reflexivity.
  - left. reflexivity.
  - apply Hnew. reflexivity.
Defined.

(** ** The queue callbacks *)

Lemma some_same_id_app_self (q : list Track) (t : Track) :
  some_same_id (q ++ [t]) t = true.
Proof.
  unfold some_same_id. rewrite existsb_app. simpl.
  rewrite String.eqb_refl. rewrite orb_true_r. reflexivity.
Qed.

Lemma distinct_ids_app_new (q : list Track) (t : Track) :
  distinct_ids q -> some_same_id q t = false -> distinct_ids (q ++ [t]).
Proof.
  unfold distinct_ids. intros Hq Hnew. rewrite map_app. simpl.
  apply NoDup_app; [exact Hq | repeat constructor; intros [] |].
  intros x Hin [Hx | []]. subst x.
  apply in_map_iff in Hin. destruct Hin as [queued [Hid Hin]].
  assert (Hsome : some_same_id q t = true)
    by (apply some_same_id_true; exists queued; auto).
  congruence.
Qed.

(** X7: after [addToQueue] the queue holds a track with the identity of the
    one added, whether it was new or not; adding the same track a second
    time changes nothing; an add never shortens the queue and lengthens it
    by at most one; and a queue without duplicate identities stays without
    duplicates. *)
Theorem addToQueue_ensures_present_once :
  forall (t : Track) (s : AudioState),
    some_same_id (queue (addToQueue (Some t) s)) t = true /\
    addToQueue (Some t) (addToQueue (Some t) s) = addToQueue (Some t) s /\
    len (queue s) <= len (queue (addToQueue (Some t) s)) <= len (queue s) + 1 /\
    (distinct_ids (queue s) -> distinct_ids (queue (addToQueue (Some t) s))).
Proof.
  intros t s. unfold addToQueue, dispatch. simpl.
  destruct (some_same_id (queue s) t) eqn:E.
  - rewrite E. repeat split; auto; lia.
  - simpl. rewrite some_same_id_app_self. rewrite len_app_one.
    repeat split; try lia.
    intro Hd. apply distinct_ids_app_new; assumption.
Qed.

Lemma addToQueue_ensures_present_once_witness :
  distinct_ids (queue (addToQueue (Some trackC)
                         (with_currentQueueIndex 0
                            (with_queue [trackA; trackB] initialState)))).
Proof.
  apply (addToQueue_ensures_present_once trackC
           (with_currentQueueIndex 0 (with_queue [trackA; trackB] initialState))).
  unfold distinct_ids. simpl.
  repeat constructor; simpl; intuition discriminate.
Defined.

Lemma filter_other_index_below {A : Type} (l : list A) (from index : Z) :
  index < from -> filter_other_index from index l = l.
Proof.
  revert from. induction l as [| x rest IH]; intros from H; simpl.
  - reflexivity.
  - destruct (from =? index) eqn:E; [apply Z.eqb_eq in E; lia |].
    rewrite IH by lia. reflexivity.
Qed.

Lemma filter_other_index_beyond {A : Type} (l : list A) (from index : Z) :
  from + len l <= index -> filter_other_index from index l = l.
Proof.
  revert from. induction l as [| x rest IH]; intros from H; simpl.
  - reflexivity.
  - rewrite len_cons in H. pose proof (len_nonneg rest).
    destruct (from =? index) eqn:E; [apply Z.eqb_eq in E; lia |].
    rewrite IH by lia. reflexivity.
Qed.

Lemma at_index_cons_succ {A : Type} (x : A) (l : list A) (k : Z) :
  0 <= k -> at_index (x :: l) (k + 1) = at_index l k.
Proof.
  intro Hk. unfold at_index.
  destruct (k + 1 <? 0) eqn:E1; [apply Z.ltb_lt in E1; lia |].
  destruct (k <? 0) eqn:E2; [apply Z.ltb_lt in E2; lia |].
  replace (Z.to_nat (k + 1)) with (S (Z.to_nat k)) by lia. reflexivity.
Qed.

Lemma at_index_nil {A : Type} (i : Z) : at_index (@nil A) i = None.
Proof.
  unfold at_index. destruct (i <? 0); [reflexivity |].
  destruct (Z.to_nat i); reflexivity.
Qed.

Lemma filter_other_index_at {A : Type} (l : list A) (from index k : Z) :
  from <= index -> 0 <= k ->
  at_index (filter_other_index from index l) k =
  if from + k <? index then at_index l k else at_index l (k + 1).
Proof.
  revert from k. induction l as [| x rest IH]; intros from k Hfrom Hk.
  - simpl. rewrite !at_index_nil. destruct (from + k <? index); reflexivity.
  - simpl. destruct (from =? index) eqn:E.
    + apply Z.eqb_eq in E. subst index.
      rewrite filter_other_index_below by lia.
      replace (from + k <? from) with false by (symmetry; apply Z.ltb_ge; lia).
      symmetry. apply at_index_cons_succ. exact Hk.
    + apply Z.eqb_neq in E.
      destruct (Z.eq_dec k 0) as [-> | Hpos].
      * replace (from + 0 <? index) with true by (symmetry; apply Z.ltb_lt; lia).
        reflexivity.
      * replace k with ((k - 1) + 1) at 1 by lia.
        rewrite at_index_cons_succ by lia.
        rewrite (IH (from + 1) (k - 1)) by lia.
        replace (from + 1 + (k - 1)) with (from + k) by lia.
        destruct (from + k <? index).
        -- replace k with ((k - 1) + 1) at 2 by lia.
           rewrite at_index_cons_succ by lia. reflexivity.
        -- replace (k - 1 + 1) with k by lia.
           rewrite at_index_cons_succ by lia. reflexivity.
Qed.

Lemma filter_other_index_len_inside {A : Type} (l : list A) (from index : Z) :
  from <= index < from + len l ->
  len (filter_other_index from index l) = len l - 1.
Proof.
  revert from. induction l as [| x rest IH]; intros from H.
  - change (len (@nil A)) with 0 in H. lia.
  - cbn [filter_other_index]. rewrite len_cons in *.
    destruct (from =? index) eqn:E.
    + apply Z.eqb_eq in E. rewrite filter_other_index_below by lia. lia.
    + apply Z.eqb_neq in E. rewrite len_cons. rewrite IH by lia. lia.
Qed.

(** X8: [removeFromQueue] with an index outside the queue leaves the queue
    as it is; with an index inside, the queue gets one shorter, the entries
    before the index stay in place and every later entry moves down by
    one. *)
Theorem removeFromQueue_drops_one :
  forall (index : Z) (s : AudioState),
    (index < 0 \/ len (queue s) <= index ->
     queue (removeFromQueue index s) = queue s) /\
    (0 <= index < len (queue s) ->
     len (queue (removeFromQueue index s)) = len (queue s) - 1 /\
     forall k, 0 <= k ->
       at_index (queue (removeFromQueue index s)) k =
       if k <? index then at_index (queue s) k else at_index (queue s) (k + 1)).
Proof.
  intros index s.
  destruct (removeFromQueue_fields index s) as [Hq _]. cbv zeta in Hq.
  rewrite Hq. split.
  - intros [Hneg | Hbig].
    + apply filter_other_index_below. exact Hneg.
    + apply filter_other_index_beyond. lia.
  - intro Hin. split.
    + apply filter_other_index_len_inside. lia.
    + intros k Hk. rewrite filter_other_index_at by lia. reflexivity.
Qed.

Lemma removeFromQueue_drops_one_witness :
  len (queue (removeFromQueue 1
                (with_currentQueueIndex 0
                   (with_queue [trackA; trackB; trackC] initialState)))) = 2.
Proof.
  destruct (removeFromQueue_drops_one 1
              (with_currentQueueIndex 0
                 (with_queue [trackA; trackB; trackC] initialState)))
    as [_ Hin].
  destruct Hin as [Hlen _]; [vm_compute; split; [discriminate | reflexivity] |].
  exact Hlen.
Defined.

(** X9: which track is current after [removeFromQueue], on a store that
    satisfies the cursor invariant. Removing an entry after the cursor
    keeps the cursor and binds the track that was under it. Removing the
    entry under the cursor or one before it, while the cursor is not on the
    last entry, keeps the cursor value, so the track that followed becomes
    the current one. With the cursor on the last entry the cursor steps
    back by one: the current track is then the previous entry when the last
    one itself was removed, and the same last track otherwise. *)
Theorem removeFromQueue_rebinds_current :
  forall (index : Z) (s : AudioState),
    queue_invariant s ->
    0 <= index < len (queue s) ->
    let s' := removeFromQueue index s in
    let cursor := currentQueueIndex s in
    (cursor < index ->
     currentQueueIndex s' = cursor /\
     currentTrack s' = at_index (queue s) cursor) /\
    (index <= cursor -> cursor < len (queue s) - 1 ->
     currentQueueIndex s' = cursor /\
     currentTrack s' = at_index (queue s) (cursor + 1)) /\
    (cursor = len (queue s) - 1 -> 2 <= len (queue s) ->
     currentQueueIndex s' = cursor - 1 /\
     currentTrack s' =
       at_index (queue s) (if index =? cursor then cursor - 1 else cursor)).
Proof.
  intros index s Hinv Hin s' cursor.
  assert (Hspec := proj1 (cursor_ok_spec _ _) Hinv).
  destruct Hspec as [[Hq _] | [_ Hc]];
    [rewrite Hq in Hin; change (len (@nil Track)) with 0 in Hin; lia |].
  fold cursor in Hc.
  destruct (removeFromQueue_fields index s) as [Hq' [Hc' Ht']].
  cbv zeta in Hq', Hc', Ht'. fold s' in Hq', Hc', Ht'. fold cursor in Hc', Ht'.
  pose proof (filter_other_index_len_inside (queue s) 0 index) as Hlen.
  rewrite Z.add_0_l in Hlen. specialize (Hlen Hin).
  assert (Hat : forall k, 0 <= k ->
            at_index (filter_other_index 0 index (queue s)) k =
            if k <? index then at_index (queue s) k
            else at_index (queue s) (k + 1)).
  { intros k Hk. rewrite filter_other_index_at by lia. reflexivity. }
  unfold Math_min in *. rewrite Hlen in Hc', Ht'.
  repeat apply conj.
  - intro Hlt.
    assert (Hne : (len (queue s) - 1 =? 0) = false)
      by (apply Z.eqb_neq; lia).
    rewrite Hne in Hc', Ht'.
    replace (Z.min cursor (len (queue s) - 1 - 1)) with cursor in Hc', Ht' by lia.
    split; [exact Hc' |]. rewrite Ht'.
    replace (cursor >=? 0) with true by (symmetry; apply Z.geb_le; lia).
    rewrite Hat by lia.
    replace (cursor <? index) with true by (symmetry; apply Z.ltb_lt; lia).
    reflexivity.
  - intros Hle Hnotlast.
    assert (Hne : (len (queue s) - 1 =? 0) = false)
      by (apply Z.eqb_neq; lia).
    rewrite Hne in Hc', Ht'.
    replace (Z.min cursor (len (queue s) - 1 - 1)) with cursor in Hc', Ht' by lia.
    split; [exact Hc' |]. rewrite Ht'.
    replace (cursor >=? 0) with true by (symmetry; apply Z.geb_le; lia).
    rewrite Hat by lia.
    replace (cursor <? index) with false by (symmetry; apply Z.ltb_ge; lia).
    reflexivity.
  - intros Hlast Htwo.
    assert (Hne : (len (queue s) - 1 =? 0) = false)
      by (apply Z.eqb_neq; lia).
    rewrite Hne in Hc', Ht'.
    replace (Z.min cursor (len (queue s) - 1 - 1)) with (cursor - 1)
      in Hc', Ht' by lia.
    split; [exact Hc' |]. rewrite Ht'.
    replace (cursor - 1 >=? 0) with true by (symmetry; apply Z.geb_le; lia).
    rewrite Hat by lia.
    destruct (index =? cursor) eqn:E.
    + apply Z.eqb_eq in E.
      replace (cursor - 1 <? index) with true by (symmetry; apply Z.ltb_lt; lia).
      reflexivity.
    + apply Z.eqb_neq in E.
      replace (cursor - 1 <? index) with false by (symmetry; apply Z.ltb_ge; lia).
      replace (cursor - 1 + 1) with cursor by lia. reflexivity.
Qed.

Lemma removeFromQueue_rebinds_current_witness :
  currentTrack
    (removeFromQueue 0
       (with_currentTrack (Some trackB)
          (with_currentQueueIndex 1
             (with_queue [trackA; trackB; trackC] initialState))))
  = Some trackC.
Proof.
  destruct (removeFromQueue_rebinds_current 0
              (with_currentTrack (Some trackB)
                 (with_currentQueueIndex 1
                    (with_queue [trackA; trackB; trackC] initialState))))
    as [_ [Hslide _]].
  - reflexivity.
  - vm_compute. split; [discriminate | reflexivity].
  - destruct Hslide as [_ Ht].
    + vm_compute. discriminate.
    + reflexivity.
    + exact Ht.
Defined.

(** ** Skipping through the queue *)

(** X10: with repeat mode one, [nextTrack] selects the track under the
    cursor whatever the shuffle flag and the random draws are, and an
    accepted bridge call restarts that track: the cursor stays, progress
    goes back to 0 and the playing flag is set. *)
Theorem next_repeat_one_restarts_current :
  forall (s : AudioState) (api : ElectronCall) (draws : list Q),
    repeatMode s = "one" ->
    0 <= currentQueueIndex s < len (queue s) ->
    exists t,
      at_index (queue s) (currentQueueIndex s) = Some t /\
      nextTrack_selection draws s = Selected (currentQueueIndex s) t /\
      (accepted api = true ->
       nextTrack api draws s =
       Some (with_isPlaying true
               (with_state_duration (duration_or_zero t)
                  (with_progress 0%Q (with_currentTrack (Some t) s))))).
Proof.
  intros s api draws Hrep Hc.
  destruct (select_at_in_range (queue s) (currentQueueIndex s) Hc)
    as [t [Hat Hsel]].
  assert (Hselection :
            nextTrack_selection draws s = Selected (currentQueueIndex s) t).
  { unfold nextTrack_selection. rewrite Hrep.
    replace (len (queue s) =? 0) with false
      by (symmetry; apply Z.eqb_neq; lia).
    exact Hsel. }
  exists t. split; [exact Hat |]. split; [exact Hselection |].
  intro Hacc. unfold nextTrack. rewrite Hselection.
  rewrite (start_selected_accepted api _ t s Hacc).
  destruct s; reflexivity.
Qed.

Lemma next_repeat_one_restarts_current_witness :
  exists t,
    nextTrack_selection [1 # 3]
      (with_shuffle true
         (with_repeatMode "one"
            (with_currentQueueIndex 1
               (with_queue [trackA; trackB; trackC] initialState))))
    = Selected 1 t.
Proof.
  destruct (next_repeat_one_restarts_current
              (with_shuffle true
                 (with_repeatMode "one"
                    (with_currentQueueIndex 1
                       (with_queue [trackA; trackB; trackC] initialState))))
              ApiResolved [1 # 3]) as [t [_ [Hsel _]]].
  - reflexivity.
  - vm_compute. split; [discriminate | reflexivity].
  - exists t. exact Hsel.
Defined.








(** X13: on an empty queue the skip callbacks do nothing at all: next and
    previous select nothing and return the store unchanged in every repeat
    mode, with shuffle on or off, for every draw and bridge outcome; this
    is the state [clearQueue] leaves behind. *)
Theorem skip_on_empty_queue_is_noop :
  forall (s : AudioState) (api : ElectronCall) (draws : list Q),
    (queue s = [] ->
     nextTrack_selection draws s = Nothing /\
     nextTrack api draws s = Some s /\
     previousTrack_selection s = Nothing /\
     previousTrack api s = s) /\
    nextTrack api draws (clearQueue s) = Some (clearQueue s) /\
    previousTrack api (clearQueue s) = clearQueue s /\
    queue_invariant (clearQueue s) /\
    currentTrack (clearQueue s) = None.
Proof.
  intros s api draws.
  assert (Hempty : forall s0, queue s0 = [] ->
            nextTrack_selection draws s0 = Nothing /\
            nextTrack api draws s0 = Some s0 /\
            previousTrack_selection s0 = Nothing /\
            previousTrack api s0 = s0).
  { intros s0 Hq.
    assert (Hn : nextTrack_selection draws s0 = Nothing)
      by (unfold nextTrack_selection; rewrite Hq; reflexivity).
    assert (Hp : previousTrack_selection s0 = Nothing)
      by (unfold previousTrack_selection; rewrite Hq; reflexivity).
    unfold nextTrack, previousTrack. rewrite Hn, Hp. repeat split. }
  split; [apply Hempty |].
  destruct (Hempty (clearQueue s)) as [_ [Hn [_ Hp]]];
    [destruct s; reflexivity |].
  repeat split; try assumption; destruct s; reflexivity.
Qed.

Lemma skip_on_empty_queue_is_noop_witness :
  nextTrack ApiResolved [1 # 2] (with_shuffle true initialState)
  = Some (with_shuffle true initialState).
Proof.
  destruct (skip_on_empty_queue_is_noop (with_shuffle true initialState)
              ApiResolved [1 # 2]) as [Hempty _].
  destruct (Hempty eq_refl) as [_ [Hn _]]. exact Hn.
Defined.



(** ** Playlists *)

Lemma filter_twice {A : Type} (f : A -> bool) (l : list A) :
  filter f (filter f l) = filter f l.
Proof.
  induction l as [| x rest IH]; simpl; [reflexivity |].
  destruct (f x) eqn:E; simpl; [rewrite E, IH; reflexivity | exact IH].
Qed.

(** X15: [deletePlaylist] with a non-empty id keeps exactly the playlists
    with another id, in their order, and does so even when the bridge call
    rejects, in which case the message is recorded as well; nothing but the
    playlists and the error field changes; deleting the same id again
    changes nothing more. Without an id, or with an empty one, it does
    nothing. *)
Theorem deletePlaylist_removes_locally :
  forall (api : ElectronCall) (playlistId : string) (s : AudioState),
    deletePlaylist api None s = s /\
    deletePlaylist api (Some "") s = s /\
    (playlistId <> "" ->
     let s' := deletePlaylist api (Some playlistId) s in
     playlists s' =
       filter (fun p => negb (playlist_id p =? playlistId)%string) (playlists s) /\
     (forall p, In p (playlists s') <->
                In p (playlists s) /\ playlist_id p <> playlistId) /\
     with_playlists (playlists s) (with_error (error s) s') = s /\
     error s' = match api with
                | ApiRejected message => Some message
                | _ => error s
                end /\
     deletePlaylist api (Some playlistId) s' = s').
Proof.
  intros api playlistId s. split; [reflexivity |]. split; [reflexivity |].
  intros Hne s'. subst s'. unfold deletePlaylist.
  destruct (playlistId =? "")%string eqn:E;
    [apply String.eqb_eq in E; contradiction |].
  assert (Hfilter : forall p,
             In p (filter (fun p => negb (playlist_id p =? playlistId)%string)
                          (playlists s)) <->
             In p (playlists s) /\ playlist_id p <> playlistId).
  { intro p. rewrite filter_In. rewrite negb_true_iff, String.eqb_neq.
    reflexivity. }
  destruct api; destruct s; simpl in *;
    (repeat apply conj; try reflexivity; try exact Hfilter;
     rewrite filter_twice; reflexivity).
Qed.

Lemma deletePlaylist_removes_locally_witness :
  playlists
    (deletePlaylist (ApiRejected "offline") (Some "p1")
       (with_playlists
          [mkPlaylist "p1" "Morning" "" 0 [] false;
           mkPlaylist "p2" "Evening" "" 1 ["a"] true] initialState))
  = [mkPlaylist "p2" "Evening" "" 1 ["a"] true].
Proof.
  destruct (deletePlaylist_removes_locally (ApiRejected "offline") "p1"
              (with_playlists
                 [mkPlaylist "p1" "Morning" "" 0 [] false;
                  mkPlaylist "p2" "Evening" "" 1 ["a"] true] initialState))
    as [_ [_ Hdel]].
  destruct Hdel as [Hp _]; [discriminate |]. exact Hp.
Defined.

Lemma flip_liked_twice (p : Playlist) : flip_liked (flip_liked p) = p.
Proof. destruct p. unfold flip_liked. simpl. rewrite negb_involutive. reflexivity. Qed.

Lemma toggle_map_twice (playlistId : string) (l : list Playlist) :
  map (fun p => if (playlist_id p =? playlistId)%string then flip_liked p else p)
      (map (fun p => if (playlist_id p =? playlistId)%string
                     then flip_liked p else p) l) = l.
Proof.
  induction l as [| p rest IH]; simpl; [reflexivity |].
  rewrite IH. destruct (playlist_id p =? playlistId)%string eqn:E.
  - simpl. rewrite E. rewrite flip_liked_twice. reflexivity.
  - rewrite E. reflexivity.
Qed.

(** X16: [togglePlaylistFavorite] is its own inverse: toggling the same id
    twice gives back the store it started from. One toggle keeps the number
    and order of the playlists, flips the liked flag of every playlist with
    that id and leaves all the others as they are. *)
Theorem togglePlaylistFavorite_involution :
  forall (playlistId : string) (s : AudioState),
    togglePlaylistFavorite playlistId (togglePlaylistFavorite playlistId s) = s /\
    List.length (playlists (togglePlaylistFavorite playlistId s))
      = List.length (playlists s) /\
    forall (n : nat) (p : Playlist),
      nth_error (playlists s) n = Some p ->
      nth_error (playlists (togglePlaylistFavorite playlistId s)) n =
      Some (if (playlist_id p =? playlistId)%string then flip_liked p else p).
Proof.
  intros playlistId s. repeat apply conj.
  - destruct s; unfold togglePlaylistFavorite, dispatch; simpl.
    rewrite toggle_map_twice. reflexivity.
  - destruct s; simpl. apply length_map.
  - intros n p Hn. destruct s; simpl in *.
    rewrite nth_error_map, Hn. reflexivity.
Qed.

(** ** Loading and scanning the library *)

(** X17: how a failed library fetch is handled differs by path. A
    library_updated event, like every [loadLibrary], empties the library
    when the reload fails and records the message, without touching the
    loading flag (no spinner); a failed [scanLibrary] records the message
    and keeps the library it had. A successful fetch replaces the library
    and clears the error on both paths, and [scanLibrary] always ends with
    the loading flag down. *)
Theorem library_fetch_outcomes :
  forall (JSON_parse : string -> option json) (Number_toString : Q -> string)
         (rawMessage : string) (fields : list (string * json))
         (s : AudioState),
    JSON_parse rawMessage = Some (JObj fields) ->
    get_field "type" fields = Some (JStr "library_updated") ->
    (forall message,
        handleEventMessage JSON_parse Number_toString (LoadRejected message)
          rawMessage s
        = with_library [] (with_error (Some message) s) /\
        scanLibrary (LoadRejected message) s
        = with_loading false (with_error (Some message) s)) /\
    (forall enriched,
        handleEventMessage JSON_parse Number_toString (LoadResolved enriched)
          rawMessage s
        = with_library enriched (with_error None s) /\
        scanLibrary (LoadResolved enriched) s
        = with_loading false (with_library enriched (with_error None s))) /\
    handleEventMessage JSON_parse Number_toString LoadNoApi rawMessage s = s /\
    scanLibrary LoadNoApi s = s.
Proof.
  intros parse nts raw fields s Hparse Htype.
  unfold handleEventMessage. rewrite Hparse. simpl event_type. rewrite Htype.
  simpl String.eqb. cbv iota.
  repeat apply conj; intros; try split; destruct s; reflexivity.
Qed.

Lemma library_fetch_outcomes_witness :
  library
    (handleEventMessage sample_parse_events sample_number_text
       (LoadRejected "offline") library_updated_text
       (with_library [trackA; trackB] initialState)) = [] /\
  library (scanLibrary (LoadRejected "offline")
             (with_library [trackA; trackB] initialState)) = [trackA; trackB].
Proof.
  destruct (library_fetch_outcomes sample_parse_events sample_number_text
              library_updated_text [("type", JStr "library_updated")]
              (with_library [trackA; trackB] initialState) eq_refl eq_refl)
    as [Hfail _].
  destruct (Hfail "offline") as [Hevent Hscan].
  rewrite Hevent, Hscan. split; reflexivity.
Defined.

Lemma togglePlaylistFavorite_involution_witness :
  nth_error
    (playlists
       (togglePlaylistFavorite "p2"
          (with_playlists
             [mkPlaylist "p1" "Morning" "" 0 [] false;
              mkPlaylist "p2" "Evening" "" 1 ["a"] true] initialState))) 1
  = Some (mkPlaylist "p2" "Evening" "" 1 ["a"] false).
Proof.
  destruct (togglePlaylistFavorite_involution "p2"
              (with_playlists
                 [mkPlaylist "p1" "Morning" "" 0 [] false;
                  mkPlaylist "p2" "Evening" "" 1 ["a"] true] initialState))
    as [_ [_ Hnth]].
  apply (Hnth 1%nat (mkPlaylist "p2" "Evening" "" 1 ["a"] true)). reflexivity.
Defined.

(** ** The progress timer *)

Lemma or_zero_eq (q : Q) : (or_zero q == q)%Q.
Proof.
  unfold or_zero. destruct (Qeq_bool q 0) eqn:E; [| reflexivity].
  apply Qeq_bool_eq in E. symmetry. exact E.
Qed.

Lemma or_zero_nonzero (q : Q) : ~ (q == 0)%Q -> or_zero q = q.
Proof.
  intro H. unfold or_zero. destruct (Qeq_bool q 0) eqn:E; [| reflexivity].
  apply Qeq_bool_eq in E. contradiction.
Qed.

Lemma progress_tick_armed (s : AudioState) :
  timer_armed (fst (progress_tick s)) = timer_armed s /\
  state_duration (fst (progress_tick s)) = state_duration s /\
  with_progress (progress s) (fst (progress_tick s)) = s.
Proof. destruct s; unfold timer_armed; simpl. repeat split. Qed.

Lemma progress_after_spec (n : nat) :
  forall (s : AudioState),
    timer_armed s = true ->
    (0 < state_duration s)%Q -> (progress s <= state_duration s)%Q ->
    (progress (progress_after n s)
     == Qmin (progress s + inject_Z (Z.of_nat n)) (state_duration s))%Q /\
    with_progress (progress s) (progress_after n s) = s.
Proof.
  induction n as [| n IH]; intros s Harmed Hd Hp.
  - simpl. split; [| destruct s; reflexivity].
    destruct (Q.min_spec (progress s + inject_Z 0) (state_duration s))
      as [[H0 H] | [H0 H]]; rewrite H; unfold inject_Z in *; lra.
  - cbn [progress_after]. rewrite Harmed.
    destruct (progress_tick_armed s) as [Ha [Hdur Hframe]].
    assert (Hnz : ~ (state_duration s == 0)%Q) by lra.
    assert (Hnext : progress (fst (progress_tick s))
                    = Qmin (progress s + 1) (state_duration s)).
    { unfold progress_tick. rewrite (or_zero_nonzero _ Hnz).
      destruct (Qeq_bool (state_duration s) 0) eqn:E;
        [apply Qeq_bool_eq in E; contradiction |].
      destruct s; reflexivity. }
    assert (Hflag : snd (progress_tick s)
                    = negb (Qle_bool (state_duration s)
                              (Qmin (progress s + 1) (state_duration s)))).
    { unfold progress_tick. rewrite (or_zero_nonzero _ Hnz).
      destruct (Qeq_bool (state_duration s) 0) eqn:E;
        [apply Qeq_bool_eq in E; contradiction |].
      reflexivity. }
    assert (Hsucc : (inject_Z (Z.of_nat (S n)) == inject_Z (Z.of_nat n) + 1)%Q).
    { rewrite Nat2Z.inj_succ. unfold Z.succ. rewrite inject_Z_plus. reflexivity. }
    destruct (progress_tick s) as [ticked armed]. simpl in *.
    subst armed.
    destruct (Qle_bool (state_duration s)
                (Qmin (progress s + 1) (state_duration s))) eqn:L; simpl.
    + apply Qle_bool_iff in L. split; [| exact Hframe].
      rewrite Hnext, Hsucc.
      pose proof (Zle_Qle 0 (Z.of_nat n)) as Hn0.
      assert (Hnn : (0 <= inject_Z (Z.of_nat n))%Q)
        by (change 0%Q with (inject_Z 0); rewrite <- Zle_Qle; lia).
      destruct (Q.min_spec (progress s + 1) (state_duration s))
        as [[H1 H2] | [H1 H2]];
        destruct (Q.min_spec (progress s + (inject_Z (Z.of_nat n) + 1))
                             (state_duration s)) as [[H3 H4] | [H3 H4]];
        rewrite H2 in *; rewrite H4; lra.
    + assert (Hlt : ~ (state_duration s
                       <= Qmin (progress s + 1) (state_duration s))%Q)
        by (intro H; apply Qle_bool_iff in H; congruence).
      destruct (IH ticked) as [IHp IHf].
      * rewrite Ha. exact Harmed.
      * rewrite Hdur. exact Hd.
      * rewrite Hdur, Hnext. apply Q.le_min_r.
      * split.
        -- rewrite IHp, Hdur, Hnext, Hsucc.
           destruct (Q.min_spec (progress s + 1) (state_duration s))
             as [[H1 H2] | [H1 H2]]; [| exfalso; apply Hlt; rewrite H2; lra].
           destruct (Q.min_spec
                       (Qmin (progress s + 1) (state_duration s)
                        + inject_Z (Z.of_nat n)) (state_duration s))
             as [[H3 H4] | [H3 H4]];
             destruct (Q.min_spec (progress s + (inject_Z (Z.of_nat n) + 1))
                                  (state_duration s)) as [[H5 H6] | [H5 H6]];
             rewrite H4, H6; rewrite H2 in *; lra.
        -- transitivity
             (with_progress (progress s)
                (with_progress (progress ticked) (progress_after n ticked))).
           ++ destruct (progress_after n ticked); reflexivity.
           ++ rewrite IHf. exact Hframe.
Qed.

(** X18: the progress timer never runs past the end of the track. On a
    store with a positive duration and a progress not beyond it, after any
    number of firings the progress has not gone down, is still not beyond
    the duration, and nothing but the progress field has changed; when the
    progress is a whole number of seconds (as it is after [playTrack] has
    reset it to 0), small enough for the additions to be exact, it is that
    number plus the number of firings, capped at the duration; and while no
    bound track is playing the timer changes nothing. *)
Theorem progress_timer_stays_within_duration :
  forall (n : nat) (s : AudioState),
    (timer_armed s = false -> progress_after n s = s) /\
    (timer_armed s = true ->
     (0 < state_duration s)%Q -> (progress s <= state_duration s)%Q ->
     (progress s <= progress (progress_after n s))%Q /\
     (progress (progress_after n s) <= state_duration s)%Q /\
     with_progress (progress s) (progress_after n s) = s) /\
    (timer_armed s = true ->
     (0 < state_duration s)%Q -> (progress s <= state_duration s)%Q ->
     forall (whole : Z),
       (progress s == inject_Z whole)%Q ->
       0 <= whole -> whole + Z.of_nat n < 2 ^ 53 ->
       (progress (progress_after n s)
        == Qmin (inject_Z (whole + Z.of_nat n)) (state_duration s))%Q).
Proof.
  intros n s. split; [| split].
  - intro Hoff. destruct n; simpl; [reflexivity |]. rewrite Hoff. reflexivity.
  - intros Harmed Hd Hp.
    destruct (progress_after_spec n s Harmed Hd Hp) as [Heq Hframe].
    assert (Hnn : (0 <= inject_Z (Z.of_nat n))%Q)
      by (change 0%Q with (inject_Z 0); rewrite <- Zle_Qle; lia).
    split; [| split; [| exact Hframe]].
    + rewrite Heq.
      destruct (Q.min_spec (progress s + inject_Z (Z.of_nat n))
                           (state_duration s)) as [[_ H] | [_ H]];
        rewrite H; lra.
    + rewrite Heq. apply Q.le_min_r.
  - intros Harmed Hd Hp whole Hwhole _ _.
    destruct (progress_after_spec n s Harmed Hd Hp) as [Heq _].
    rewrite Heq, Hwhole, inject_Z_plus. reflexivity.
Qed.

Lemma progress_timer_stays_within_duration_witness :
  (progress
     (progress_after 5
        (with_state_duration (7 # 2)
           (with_progress (1 # 1)
              (with_isPlaying true
                 (with_currentTrack (Some trackA) initialState)))))
   == 7 # 2)%Q /\
  (progress
     (progress_after 2
        (with_state_duration (7 # 2)
           (with_progress (1 # 1)
              (with_isPlaying true
                 (with_currentTrack (Some trackA) initialState)))))
   == 3 # 1)%Q.
Proof.
  split.
  - destruct (progress_timer_stays_within_duration 5
                (with_state_duration (7 # 2)
                   (with_progress (1 # 1)
                      (with_isPlaying true
                         (with_currentTrack (Some trackA) initialState)))))
      as [_ [_ Hwhole]].
    rewrite (Hwhole eq_refl eq_refl) with (whole := 1).
    + reflexivity.
    + vm_compute. discriminate.
    + reflexivity.
    + lia.
    + vm_compute. reflexivity.
  - destruct (progress_timer_stays_within_duration 2
                (with_state_duration (7 # 2)
                   (with_progress (1 # 1)
                      (with_isPlaying true
                         (with_currentTrack (Some trackA) initialState)))))
      as [_ [_ Hwhole]].
    rewrite (Hwhole eq_refl eq_refl) with (whole := 1).
    + reflexivity.
    + vm_compute. discriminate.
    + reflexivity.
    + lia.
    + vm_compute. reflexivity.
Defined.

(** ** Volume *)

(** X19: [adjustVolume] never leaves the unit interval. On a numeric volume
    it hands [setVolume] the sum clamped to between 0 and 1, which is the
    plain sum whenever that already lies in the interval; the store then
    holds that volume when the bridge accepts, and keeps its old volume,
    with the error recorded, when the bridge rejects. *)
Theorem adjustVolume_clamps_to_unit :
  forall (api : ElectronCall) (delta v : Q) (s : AudioState),
    volume s = JNum v ->
    exists v',
      (0 <= v')%Q /\ (v' <= 1)%Q /\
      ((0 <= v + delta)%Q -> (v + delta <= 1)%Q -> (v' == v + delta)%Q) /\
      ((v + delta < 0)%Q -> (v' == 0)%Q) /\
      ((1 < v + delta)%Q -> (v' == 1)%Q) /\
      adjustVolume api delta s =
      Some (match api with
            | ApiRejected message => with_error (Some message) s
            | _ => with_volume (JNum v') s
            end).
Proof.
  intros api delta v s Hv.
  exists (Qmax 0 (Qmin 1 (v + delta))).
  assert (Hbounds :
    (0 <= Qmax 0 (Qmin 1 (v + delta)))%Q /\
    (Qmax 0 (Qmin 1 (v + delta)) <= 1)%Q /\
    ((0 <= v + delta)%Q -> (v + delta <= 1)%Q ->
     (Qmax 0 (Qmin 1 (v + delta)) == v + delta)%Q) /\
    ((v + delta < 0)%Q -> (Qmax 0 (Qmin 1 (v + delta)) == 0)%Q) /\
    ((1 < v + delta)%Q -> (Qmax 0 (Qmin 1 (v + delta)) == 1)%Q)).
  { destruct (Q.min_spec 1 (v + delta)) as [[H1 H2] | [H1 H2]];
      destruct (Q.max_spec 0 (Qmin 1 (v + delta))) as [[H3 H4] | [H3 H4]];
      rewrite H4; rewrite H2 in *; repeat split; intros; lra. }
  destruct Hbounds as [B1 [B2 [B3 [B4 B5]]]].
  repeat (split; [assumption |]).
  unfold adjustVolume. rewrite Hv. destruct api; reflexivity.
Qed.

Lemma adjustVolume_clamps_to_unit_witness :
  exists v',
    (v' == 1)%Q /\
    adjustVolume ApiResolved (1 # 2) initialState =
    Some (with_volume (JNum v') initialState).
Proof.
  destruct (adjustVolume_clamps_to_unit ApiResolved (1 # 2) (7 # 10)
              initialState eq_refl) as [v' [_ [_ [_ [_ [Hhigh Hrun]]]]]].
  exists v'. split; [apply Hhigh; reflexivity | exact Hrun].
Defined.

(** ** The playback bar *)

(** X20: the repeat button cycles none, all, one: from any of the three
    modes three presses bring the store back to where it was and no fewer
    do; from any other mode one press lands on none; and a press changes
    nothing but the repeat mode. *)
Theorem repeat_button_cycles_in_three :
  forall (s : AudioState),
    (repeatMode s = "none" \/ repeatMode s = "all" \/ repeatMode s = "one" ->
     handleRepeatCycle (handleRepeatCycle (handleRepeatCycle s)) = s /\
     repeatMode (handleRepeatCycle s) <> repeatMode s /\
     repeatMode (handleRepeatCycle (handleRepeatCycle s)) <> repeatMode s) /\
    (repeatMode s <> "none" -> repeatMode s <> "all" ->
     repeatMode (handleRepeatCycle s) = "none") /\
    with_repeatMode (repeatMode s) (handleRepeatCycle s) = s.
Proof.
  intro s. repeat apply conj.
  - intros [H | [H | H]]; destruct s; simpl in *; subst;
      repeat split; try reflexivity; discriminate.
  - intros Hn Ha. unfold handleRepeatCycle, setRepeatMode, dispatch.
    apply String.eqb_neq in Hn, Ha. rewrite Hn, Ha. reflexivity.
  - destruct s; reflexivity.
Qed.

Lemma repeat_button_cycles_in_three_witness :
  handleRepeatCycle (handleRepeatCycle (handleRepeatCycle initialState))
  = initialState /\
  repeatMode (handleRepeatCycle (with_repeatMode "shuffle" initialState))
  = "none".
Proof.
  split.
  - destruct (repeat_button_cycles_in_three initialState) as [Hcycle _].
    destruct Hcycle as [H _]; [left; reflexivity | exact H].
  - destruct (repeat_button_cycles_in_three
                (with_repeatMode "shuffle" initialState)) as [_ [Hother _]].
    apply Hother; discriminate.
Defined.

(** X21: the values the playback bar shows are always within range: the
    duration, the progress and the remaining time are never negative, and
    the remaining time never exceeds the duration; when the duration is
    positive the progress shown does not exceed it; nothing remains once
    the progress shown has reached the duration, nor when there is no
    duration; and for a duration and a progress that are whole numbers of
    seconds (small enough for the subtraction to be exact) progress plus
    remaining is the duration. *)
Theorem playback_bar_values_consistent :
  forall (s : AudioState),
    (0 <= safeDuration s)%Q /\ (0 <= safeProgress s)%Q /\
    (0 <= remaining s)%Q /\
    (remaining s <= safeDuration s)%Q /\
    ((0 < safeDuration s)%Q -> (safeProgress s <= safeDuration s)%Q) /\
    ((safeDuration s <= safeProgress s)%Q -> (remaining s == 0)%Q) /\
    ((safeDuration s == 0)%Q -> (remaining s == 0)%Q) /\
    (forall (wholeDuration wholeProgress : Z),
        (state_duration s == inject_Z wholeDuration)%Q ->
        (progress s == inject_Z wholeProgress)%Q ->
        0 < wholeDuration < 2 ^ 53 -> - 2 ^ 53 < wholeProgress < 2 ^ 53 ->
        (safeProgress s + remaining s == inject_Z wholeDuration)%Q).
Proof.
  intro s.
  assert (Hdur : (safeDuration s == Qmax 0 (state_duration s))%Q).
  { unfold safeDuration.
    destruct (Q.max_spec 0 (or_zero (state_duration s))) as [[H1 H2] | [H1 H2]];
      destruct (Q.max_spec 0 (state_duration s)) as [[H3 H4] | [H3 H4]];
      rewrite H2, H4; pose proof (or_zero_eq (state_duration s)); lra. }
  unfold remaining, safeProgress.
  set (d := safeDuration s) in *.
  assert (Hd : (0 <= d)%Q) by (apply Q.le_max_l).
  assert (Hmax : (0 < MAX_SAFE_INTEGER)%Q) by reflexivity.
  set (p := Qmax 0 (or_zero (progress s))).
  assert (Hp : (0 <= p)%Q) by (apply Q.le_max_l).
  assert (Hwhole : forall a : Z,
             (state_duration s == inject_Z a)%Q -> 0 < a ->
             (d == inject_Z a)%Q).
  { intros a Ha Hpos. rewrite Hdur, Ha.
    assert (Hq : (0 < inject_Z a)%Q)
      by (change 0%Q with (inject_Z 0); rewrite <- Zlt_Qlt; exact Hpos).
    destruct (Q.max_spec 0 (inject_Z a)) as [[H1 H2] | [H1 H2]];
      rewrite H2; lra. }
  destruct (Qeq_bool d 0) eqn:E.
  - apply Qeq_bool_eq in E.
    destruct (Q.min_spec p MAX_SAFE_INTEGER) as [[H1 H2] | [H1 H2]];
      destruct (Q.max_spec 0 (d - Qmin p MAX_SAFE_INTEGER))
        as [[H3 H4] | [H3 H4]];
      (repeat split; intros; rewrite ?H4; rewrite ?H2 in *; try lra;
       match goal with
       | Ha : (state_duration s == inject_Z ?a)%Q, Hb : 0 < ?a < _ |- _ =>
           pose proof (Hwhole a Ha (proj1 Hb));
           assert ((inject_Z 0 < inject_Z a)%Q)
             by (rewrite <- Zlt_Qlt; exact (proj1 Hb));
           change (inject_Z 0) with 0%Q in *; lra
       end).
  - assert (Hnz : ~ (d == 0)%Q)
      by (intro H; apply Qeq_bool_iff in H; congruence).
    destruct (Q.min_spec p d) as [[H1 H2] | [H1 H2]];
      destruct (Q.max_spec 0 (d - Qmin p d)) as [[H3 H4] | [H3 H4]];
      (repeat split; intros; rewrite ?H4; rewrite ?H2 in *; try lra;
       match goal with
       | Ha : (state_duration s == inject_Z ?a)%Q, Hb : 0 < ?a < _ |- _ =>
           pose proof (Hwhole a Ha (proj1 Hb));
           assert ((inject_Z 0 < inject_Z a)%Q)
             by (rewrite <- Zlt_Qlt; exact (proj1 Hb));
           change (inject_Z 0) with 0%Q in *; lra
       end).
Qed.

Lemma playback_bar_values_consistent_witness :
  (safeProgress (with_state_duration (180 # 1)
                   (with_progress (200 # 1) initialState))
   <= safeDuration (with_state_duration (180 # 1)
                      (with_progress (200 # 1) initialState)))%Q /\
  (safeProgress (with_state_duration (180 # 1)
                   (with_progress (42 # 1) initialState))
   + remaining (with_state_duration (180 # 1)
                  (with_progress (42 # 1) initialState)) == 180 # 1)%Q.
Proof.
  split.
  - destruct (playback_bar_values_consistent
                (with_state_duration (180 # 1)
                   (with_progress (200 # 1) initialState)))
      as [_ [_ [_ [_ [Hpos _]]]]].
    apply Hpos. reflexivity.
  - destruct (playback_bar_values_consistent
                (with_state_duration (180 # 1)
                   (with_progress (42 # 1) initialState)))
      as [_ [_ [_ [_ [_ [_ [_ Hsum]]]]]]].
    apply (Hsum 180 42); [reflexivity | reflexivity | lia | lia].
Defined.

(** ** Play selected, play playlist *)

Lemma some_same_id_add_monotone (u t : Track) (s : AudioState) :
  some_same_id (queue s) t = true ->
  some_same_id (queue (addToQueue (Some u) s)) t = true.
Proof.
  intro H. unfold addToQueue, dispatch. simpl.
  destruct (some_same_id (queue s) u); [exact H |].
  simpl. unfold some_same_id in *. rewrite existsb_app, H. reflexivity.
Qed.

Lemma addToQueue_present (t : Track) (s : AudioState) :
  some_same_id (queue (addToQueue (Some t) s)) t = true.
Proof.
  unfold addToQueue, dispatch. simpl.
  destruct (some_same_id (queue s) t) eqn:E; [exact E |].
  simpl. apply some_same_id_app_self.
Qed.

Lemma addAllToQueue_monotone (rest : list Track) :
  forall (t : Track) (s : AudioState),
    some_same_id (queue s) t = true ->
    some_same_id (queue (addAllToQueue rest s)) t = true.
Proof.
  induction rest as [| u more IH]; intros t s H; simpl; [exact H |].
  apply IH. apply some_same_id_add_monotone. exact H.
Qed.

Lemma addAllToQueue_present (rest : list Track) :
  forall (t : Track) (s : AudioState),
    In t rest -> some_same_id (queue (addAllToQueue rest s)) t = true.
Proof.
  induction rest as [| u more IH]; intros t s Hin; [destruct Hin |].
  simpl. destruct Hin as [-> | Hin].
  - apply addAllToQueue_monotone. apply addToQueue_present.
  - apply IH. exact Hin.
Qed.

Lemma playTrack_then_alone (api : ElectronCall) (track : option Track)
  (s : AudioState) :
  playTrack_then api track (fun s0 => s0) s = playTrack api track s.
Proof.
  unfold playTrack_then, playTrack.
  destruct track as [t |]; [| reflexivity].
  destruct (path t =? "")%string; [reflexivity |].
  destruct (loading s); [reflexivity |].
  match goal with |- context [if ?c then s else _] => destruct c end;
    [reflexivity |].
  destruct api; reflexivity.
Qed.

(** X22: play selected (and play playlist) loses tracks when a bridge is
    present. If the first selected track can be played (it has a path, the
    store is not loading, and it is not the track already playing, though
    another one may be) and is not queued
    yet, then once the bridge call has resolved the queue is the queue
    captured on entry plus that first track, with the cursor on it: tracks
    the caller queued while the call was pending are overwritten. Without a
    bridge nothing is awaited, the same call ends with every selected track
    in the queue. With nothing left to queue afterwards, the interleaved
    run is the plain [playTrack]. *)
Theorem play_selected_overwrites_pending_adds :
  forall (first : Track) (rest : list Track) (s : AudioState),
    path first <> "" -> loading s = false ->
    (isPlaying s = false \/ currentTrack s = None \/
     exists current, currentTrack s = Some current /\ id current <> id first) ->
    some_same_id (queue s) first = false ->
    (queue (handlePlaySelected ApiResolved (first :: rest) s)
       = (queue s ++ [first])%list /\
     currentQueueIndex (handlePlaySelected ApiResolved (first :: rest) s)
       = len (queue s) /\
     currentTrack (handlePlaySelected ApiResolved (first :: rest) s)
       = Some first) /\
    (forall t, In t (first :: rest) ->
       some_same_id (queue (handlePlaySelected ApiMissing (first :: rest) s)) t
       = true) /\
    (forall api,
       handlePlaySelected api [first] s = playTrack api (Some first) s).
Proof.
  intros first rest s Hpath Hload Hidle Hnew.
  assert (Hguard : (match currentTrack s with
                    | Some current => (id current =? id first)%string
                    | None => false
                    end && isPlaying s)%bool = false).
  { destruct Hidle as [-> | [-> | [current [-> Hother]]]].
    - apply andb_false_r.
    - reflexivity.
    - apply String.eqb_neq in Hother. rewrite Hother. reflexivity. }
  assert (Hindex : findIndex_same_id (queue s) first = -1).
  { unfold findIndex_same_id.
    destruct (Z.eq_dec (findIndex_from 0 (queue s) first) (-1)) as [H | H];
      [exact H |].
    destruct (findIndex_from_found (queue s) first 0 H (Z.le_refl 0))
      as [Hsome _]. congruence. }
  apply String.eqb_neq in Hpath.
  repeat apply conj.
  - unfold handlePlaySelected, playTrack_then.
    rewrite Hpath, Hload, Hguard, Hindex. reflexivity.
  - unfold handlePlaySelected, playTrack_then.
    rewrite Hpath, Hload, Hguard, Hindex. simpl.
    rewrite len_app_one. lia.
  - unfold handlePlaySelected, playTrack_then.
    rewrite Hpath, Hload, Hguard, Hindex. reflexivity.
  - intros t Hin. unfold handlePlaySelected, playTrack_then.
    rewrite Hpath, Hload, Hguard, Hindex. cbv zeta.
    change (-1 =? -1) with true. cbv iota.
    destruct Hin as [<- | Hin].
    + apply addAllToQueue_monotone. simpl. apply some_same_id_app_self.
    + apply addAllToQueue_present. exact Hin.
  - intro api. unfold handlePlaySelected.
    change (addAllToQueue []) with (fun s0 : AudioState => s0).
    apply playTrack_then_alone.
Qed.

Lemma play_selected_overwrites_pending_adds_witness :
  queue (handlePlaySelected ApiResolved [trackB; trackC]
           (with_isPlaying true
              (with_currentTrack (Some trackA)
                 (with_currentQueueIndex 0 (with_queue [trackA] initialState)))))
  = [trackA; trackB] /\
  queue (handlePlaySelected ApiMissing [trackB; trackC]
           (with_isPlaying true
              (with_currentTrack (Some trackA)
                 (with_currentQueueIndex 0 (with_queue [trackA] initialState)))))
  = [trackA; trackB; trackC].
Proof.
  destruct (play_selected_overwrites_pending_adds trackB [trackC]
              (with_isPlaying true
                 (with_currentTrack (Some trackA)
                    (with_currentQueueIndex 0
                       (with_queue [trackA] initialState)))))
    as [[Hq _] _].
  - discriminate.
  - reflexivity.
  - right. right. exists trackA. split; [reflexivity | discriminate].
  - reflexivity.
  - split; [exact Hq | reflexivity].
Defined.

Lemma duration_fold_shift (lib : list Track) (ids : list string) :
  forall (acc : Q),
    (fold_left
       (fun sum wanted =>
          (sum + match find (fun item => (id item =? wanted)%string) lib with
                 | Some t => duration_or_zero t
                 | None => 0
                 end)%Q) ids acc
     == acc +
        fold_left
          (fun sum wanted =>
             (sum + match find (fun item => (id item =? wanted)%string) lib with
                    | Some t => duration_or_zero t
                    | None => 0
                    end)%Q) ids 0)%Q.
Proof.
  induction ids as [| wanted more IH]; intro acc; simpl.
  - lra.
  - rewrite IH. rewrite (IH (0 + _)%Q). lra.
Qed.

Lemma duration_or_zero_nonneg (t : Track) :
  (forall d, duration t = Some d -> (0 <= d)%Q) ->
  (0 <= duration_or_zero t)%Q.
Proof.
  intro H. unfold duration_or_zero. destruct (duration t) as [d |]; [| lra].
  rewrite or_zero_eq. apply H. reflexivity.
Qed.

(** X23: the total duration shown for a playlist. When the durations of
    the library tracks are whole numbers of seconds and the total stays
    below 2^53 (so that every addition is exact) the total adds up over the
    parts of the playlist: the duration of a playlist whose track list is
    two lists one after the other is the sum of the two durations. An id
    that is not in the library adds nothing, so a playlist of unknown ids
    totals 0; and when no library track has a negative duration the total
    is never negative. *)
Theorem playlist_duration_is_additive :
  forall (lib : list Track) (whole front back : Playlist),
    tracks whole = (tracks front ++ tracks back)%list ->
    ((forall t d, In t lib -> duration t = Some d ->
                  exists seconds : Z, 0 <= seconds /\ (d == inject_Z seconds)%Q) ->
     (computePlaylistDuration lib whole < inject_Z (2 ^ 53))%Q ->
     (computePlaylistDuration lib whole
      == computePlaylistDuration lib front + computePlaylistDuration lib back)%Q) /\
    ((forall wanted, In wanted (tracks whole) ->
                     find (fun item => (id item =? wanted)%string) lib = None) ->
     (computePlaylistDuration lib whole == 0)%Q) /\
    ((forall t d, In t lib -> duration t = Some d -> (0 <= d)%Q) ->
     (0 <= computePlaylistDuration lib whole)%Q).
Proof.
  intros lib whole front back Hsplit.
  unfold computePlaylistDuration. repeat apply conj.
  - intros _ _.
    rewrite Hsplit, fold_left_app. rewrite duration_fold_shift. reflexivity.
  - generalize (tracks whole) as ids. clear.
    induction ids as [| wanted more IH]; intro Hnone; simpl; [lra |].
    rewrite duration_fold_shift.
    rewrite (Hnone wanted) by (left; reflexivity).
    rewrite IH; [lra |]. intros w Hw. apply Hnone. right. exact Hw.
  - intro Hpos. generalize (tracks whole) as ids.
    induction ids as [| wanted more IH]; simpl; [lra |].
    rewrite duration_fold_shift.
    destruct (find (fun item => (id item =? wanted)%string) lib) as [t |] eqn:F.
    + apply find_some in F. destruct F as [Hin _].
      pose proof (duration_or_zero_nonneg t (fun d => Hpos t d Hin)).
      lra.
    + lra.
Qed.

Lemma playlist_duration_is_additive_witness :
  (computePlaylistDuration [trackA; trackB; trackC]
     (mkPlaylist "p" "Mix" "" 3 ["a"; "zz"; "b"] false)
   == computePlaylistDuration [trackA; trackB; trackC]
        (mkPlaylist "f" "Front" "" 2 ["a"; "zz"] false)
      + computePlaylistDuration [trackA; trackB; trackC]
          (mkPlaylist "b" "Back" "" 1 ["b"] false))%Q.
Proof.
  apply (playlist_duration_is_additive [trackA; trackB; trackC]
           (mkPlaylist "p" "Mix" "" 3 ["a"; "zz"; "b"] false)
           (mkPlaylist "f" "Front" "" 2 ["a"; "zz"] false)
           (mkPlaylist "b" "Back" "" 1 ["b"] false)).
  - reflexivity.
  - intros t d Hin Hd. simpl in Hin.
    destruct Hin as [<- | [<- | [<- | []]]]; simpl in Hd;
      try discriminate Hd; injection Hd as <-.
    + exists 180. split; [lia | reflexivity].
    + exists 240. split; [lia | reflexivity].
  - vm_compute. reflexivity.
Defined.

(** ** What every run keeps *)

Lemma at_index_some_range {A : Type} (l : list A) (i : Z) (x : A) :
  at_index l i = Some x -> 0 <= i < len l.
Proof.
  unfold at_index. destruct (i <? 0) eqn:E; [discriminate |].
  apply Z.ltb_ge in E. intro H.
  assert (Hlt : (Z.to_nat i < List.length l)%nat)
    by (apply nth_error_Some; congruence).
  unfold len. lia.
Qed.

Lemma store_invariant_same_queue (s s' : AudioState) :
  queue s' = queue s -> currentQueueIndex s' = currentQueueIndex s ->
  store_invariant s -> store_invariant s'.
Proof.
  unfold store_invariant, queue_invariant. intros -> -> H. exact H.
Qed.

Lemma store_invariant_settings (s s' : AudioState) :
  same_queue_settings s s' -> store_invariant s -> store_invariant s'.
Proof.
  intros [Hq [Hc _]]. apply store_invariant_same_queue; assumption.
Qed.

Lemma store_invariant_cursor (s : AudioState) (i : Z) :
  0 <= i < len (queue s) -> store_invariant s ->
  store_invariant (with_currentQueueIndex i s).
Proof.
  intros Hi [_ Hd]. split; [| destruct s; exact Hd].
  unfold queue_invariant. destruct s; simpl in *.
  apply cursor_ok_spec. right. split; [| exact Hi].
  intro Hq. subst. change (len (@nil Track)) with 0 in Hi. lia.
Qed.

Lemma store_invariant_start_selected (api : ElectronCall) (i : Z) (t : Track)
  (s : AudioState) :
  at_index (queue s) i = Some t -> store_invariant s ->
  store_invariant (start_selected api i t s).
Proof.
  intros Hat Hinv. apply at_index_some_range in Hat.
  destruct api; simpl;
    try (apply store_invariant_same_queue
           with (s := with_currentQueueIndex i s);
         [destruct s; reflexivity | destruct s; reflexivity
         | apply store_invariant_cursor; assumption]).
  apply store_invariant_same_queue with (s := s);
    [destruct s; reflexivity | destruct s; reflexivity | exact Hinv].
Qed.

Lemma select_at_sound (q : list Track) (i j : Z) (t : Track) :
  select_at q i = Selected j t -> at_index q j = Some t.
Proof.
  unfold select_at. destruct (at_index q i) as [x |] eqn:E; [| discriminate].
  intro H. injection H as <- <-. exact E.
Qed.

Lemma nextTrack_selection_sound (draws : list Q) (s : AudioState)
  (i : Z) (t : Track) :
  nextTrack_selection draws s = Selected i t -> at_index (queue s) i = Some t.
Proof.
  unfold nextTrack_selection. cbv zeta.
  repeat match goal with
         | |- context [if ?c then _ else _] => destruct c
         | |- context [match shuffle_pick ?a ?b ?c with _ => _ end] =>
             destruct (shuffle_pick a b c)
         end;
    try discriminate; apply select_at_sound.
Qed.

Lemma previousTrack_selection_sound (s : AudioState) (i : Z) (t : Track) :
  previousTrack_selection s = Selected i t -> at_index (queue s) i = Some t.
Proof.
  unfold previousTrack_selection. cbv zeta.
  repeat match goal with
         | |- context [if ?c then _ else _] => destruct c
         end;
    try discriminate; apply select_at_sound.
Qed.

Lemma store_invariant_next (api : ElectronCall) (draws : list Q)
  (s s' : AudioState) :
  nextTrack api draws s = Some s' -> store_invariant s -> store_invariant s'.
Proof.
  unfold nextTrack. destruct (nextTrack_selection draws s) as [| | i t] eqn:E;
    intros H Hinv; try discriminate; injection H as <-; [exact Hinv |].
  apply store_invariant_start_selected; [| exact Hinv].
  apply (nextTrack_selection_sound draws). exact E.
Qed.

Lemma store_invariant_previous (api : ElectronCall) (s : AudioState) :
  store_invariant s -> store_invariant (previousTrack api s).
Proof.
  intro Hinv. unfold previousTrack.
  destruct (previousTrack_selection s) as [| | i t] eqn:E; try exact Hinv.
  apply store_invariant_start_selected; [| exact Hinv].
  apply previousTrack_selection_sound. exact E.
Qed.

Lemma store_invariant_add (track : option Track) (s : AudioState) :
  store_invariant s -> store_invariant (addToQueue track s).
Proof.
  intros [Hc Hd]. destruct track as [t |]; [| split; assumption].
  unfold addToQueue, dispatch. simpl.
  destruct (some_same_id (queue s) t) eqn:E; [split; assumption |].
  split.
  - unfold queue_invariant in *. apply cursor_ok_spec in Hc.
    destruct s; simpl in *. apply cursor_ok_spec. right.
    split; [destruct queue0; discriminate |].
    rewrite len_app_one. pose proof (len_nonneg queue0).
    destruct Hc as [[-> _] | [Hq Hr]]; [simpl; lia |].
    replace (len queue0 =? 0) with false
      by (symmetry; apply Z.eqb_neq; lia).
    lia.
  - destruct s; simpl in *. apply distinct_ids_app_new; assumption.
Qed.

Lemma addToQueue_len (track : option Track) (s : AudioState) :
  len (queue s) <= len (queue (addToQueue track s)).
Proof.
  destruct track as [t |]; [| simpl; lia].
  unfold addToQueue, dispatch. simpl.
  destruct (some_same_id (queue s) t); [lia |].
  simpl. rewrite len_app_one. lia.
Qed.

Lemma store_invariant_addAll (rest : list Track) :
  forall (s : AudioState),
    store_invariant s ->
    store_invariant (addAllToQueue rest s) /\
    len (queue s) <= len (queue (addAllToQueue rest s)).
Proof.
  induction rest as [| t more IH]; intros s Hinv.
  - simpl. split; [exact Hinv | lia].
  - change (addAllToQueue (t :: more) s)
      with (addAllToQueue more (addToQueue (Some t) s)).
    destruct (IH (addToQueue (Some t) s)) as [Hi Hl];
      [apply store_invariant_add; exact Hinv |].
    split; [exact Hi |].
    pose proof (addToQueue_len (Some t) s). lia.
Qed.

Lemma distinct_ids_filter_other_index (q : list Track) :
  forall (from index : Z),
    distinct_ids q -> distinct_ids (filter_other_index from index q).
Proof.
  unfold distinct_ids.
  assert (Hin : forall (l : list Track) from index x,
             In x (map id (filter_other_index from index l)) -> In x (map id l)).
  { induction l as [| y rest IH]; intros from index x H; simpl in *; [exact H |].
    destruct (from =? index).
    - right. apply (IH _ _ _ H).
    - simpl in H. destruct H as [H | H]; [left; exact H | right].
      apply (IH _ _ _ H). }
  induction q as [| y rest IH]; intros from index Hd; simpl; [exact Hd |].
  inversion Hd as [| a l Hnot Hrest]; subst.
  destruct (from =? index); [apply IH; exact Hrest |].
  simpl. constructor; [| apply IH; exact Hrest].
  intro H. apply Hnot. apply (Hin _ _ _ _ H).
Qed.

Lemma store_invariant_remove (index : Z) (s : AudioState) :
  store_invariant s -> store_invariant (removeFromQueue index s).
Proof.
  intros [Hc Hd].
  destruct (removeFromQueue_fields index s) as [Hq' [Hc' _]].
  cbv zeta in Hq', Hc'.
  pose proof (filter_other_index_len (queue s) 0 index) as Hle.
  split.
  - unfold queue_invariant. rewrite Hq', Hc'.
    set (newQueue := filter_other_index 0 index (queue s)) in *.
    pose proof (len_nonneg newQueue) as Hnn.
    unfold queue_invariant in Hc. apply cursor_ok_spec in Hc.
    apply cursor_ok_spec. unfold Math_min.
    destruct (len newQueue =? 0) eqn:E.
    + apply Z.eqb_eq in E. apply len_nil_iff in E. left. auto.
    + apply Z.eqb_neq in E. right.
      split; [intro Hq; apply E; apply len_nil_iff; exact Hq |].
      destruct Hc as [[Hq _] | [_ Hr]]; [| lia].
      rewrite Hq in Hle. change (len (@nil Track)) with 0 in Hle. lia.
  - rewrite Hq'. apply distinct_ids_filter_other_index. exact Hd.
Qed.

Lemma store_invariant_playTrack_then (api : ElectronCall)
  (track : option Track) (meanwhile : AudioState -> AudioState)
  (s : AudioState) :
  (forall s0, store_invariant s0 ->
              store_invariant (meanwhile s0) /\
              len (queue s0) <= len (queue (meanwhile s0))) ->
  store_invariant s -> store_invariant (playTrack_then api track meanwhile s).
Proof.
  intros HM Hinv. unfold playTrack_then.
  destruct track as [t |]; [| apply HM; exact Hinv].
  destruct (path t =? "")%string; [apply HM; exact Hinv |].
  destruct (loading s); [apply HM; exact Hinv |].
  match goal with |- context [if ?c then meanwhile s else _] => destruct c end;
    [apply HM; exact Hinv |].
  cbv zeta.
  set (entered := dispatch (SET_LOADING true) (dispatch (SET_ERROR None) s)).
  assert (Hentered : store_invariant entered /\ queue entered = queue s).
  { split; [| destruct s; reflexivity].
    apply store_invariant_same_queue with (s := s);
      [destruct s; reflexivity | destruct s; reflexivity | exact Hinv]. }
  destruct Hentered as [Hentered Hqe].
  assert (Hcommit : forall s1,
             store_invariant s1 -> len (queue s) <= len (queue s1) ->
             store_invariant
               (dispatch (SET_LOADING false)
                  (dispatch (SET_DURATION (duration_or_zero t))
                     (dispatch (SET_PROGRESS 0%Q)
                        (dispatch (SET_PLAYBACK_STATE true)
                           (dispatch (SET_CURRENT_TRACK (Some t))
                              (if findIndex_same_id (queue s) t =? -1
                               then dispatch
                                      (SET_QUEUE
                                         (if findIndex_same_id (queue s) t =? -1
                                          then (queue s ++ [t])%list
                                          else queue s)
                                         (Some
                                            (if findIndex_same_id (queue s) t
                                                =? -1
                                             then len
                                                    (if findIndex_same_id
                                                          (queue s) t =? -1
                                                     then (queue s ++ [t])%list
                                                     else queue s) - 1
                                             else findIndex_same_id (queue s) t)))
                                      s1
                               else dispatch
                                      (SET_QUEUE_INDEX
                                         (if findIndex_same_id (queue s) t
                                             =? -1
                                          then len
                                                 (if findIndex_same_id
                                                       (queue s) t =? -1
                                                  then (queue s ++ [t])%list
                                                  else queue s) - 1
                                          else findIndex_same_id (queue s) t))
                                      s1))))))).
  { intros s1 Hinv1 Hlen. unfold findIndex_same_id.
    destruct (findIndex_from 0 (queue s) t =? -1) eqn:F.
    - apply Z.eqb_eq in F.
      pose proof (findIndex_from_none (queue s) t 0 F (Z.le_refl 0)) as Hnew.
      destruct Hinv as [_ Hd].
      split.
      + unfold queue_invariant. destruct s1; simpl.
        apply cursor_ok_spec. right.
        split; [destruct (queue s); discriminate |].
        rewrite len_app_one. pose proof (len_nonneg (queue s)). lia.
      + destruct s1; simpl. apply distinct_ids_app_new; assumption.
    - apply Z.eqb_neq in F.
      destruct (findIndex_from_range (queue s) t 0) as [Hn | Hr];
        [congruence |].
      apply store_invariant_same_queue
        with (s := with_currentQueueIndex (findIndex_from 0 (queue s) t) s1);
        [destruct s1; reflexivity | destruct s1; reflexivity |].
      apply store_invariant_cursor; [lia | exact Hinv1]. }
  destruct api.
  - apply HM. apply Hcommit; [exact Hentered | rewrite Hqe; lia].
  - destruct (HM entered Hentered) as [Hm Hl].
    apply Hcommit; [exact Hm | rewrite <- Hqe; exact Hl].
  - destruct (HM entered Hentered) as [Hm _].
    apply store_invariant_same_queue with (s := meanwhile entered);
      [| | exact Hm]; destruct (meanwhile entered); reflexivity.
Qed.

Lemma store_invariant_playTrack (api : ElectronCall) (track : option Track)
  (s : AudioState) :
  store_invariant s -> store_invariant (playTrack api track s).
Proof.
  intro Hinv. rewrite <- playTrack_then_alone.
  apply store_invariant_playTrack_then; [| exact Hinv].
  intros s0 H0. split; [exact H0 | lia].
Qed.

Lemma store_invariant_toggle (api : ElectronCall) (s : AudioState) :
  store_invariant s -> store_invariant (togglePlayPause api s).
Proof.
  apply store_invariant_same_queue;
    unfold togglePlayPause; destruct s, isPlaying0, currentTrack0, api;
    reflexivity.
Qed.

Lemma shuffle_pick_none (draws : list Q) (n cursor : Z) :
  shuffle_pick draws n cursor = None <->
  Forall (fun r => random_index r n = cursor) draws.
Proof.
  induction draws as [| r later IH]; simpl.
  - split; [constructor | reflexivity].
  - destruct (random_index r n =? cursor) eqn:E.
    + apply Z.eqb_eq in E. rewrite IH. split.
      * intro H. constructor; assumption.
      * intro H. inversion H; assumption.
    + apply Z.eqb_neq in E. split; [discriminate |].
      intro H. inversion H. contradiction.
Qed.

Lemma select_at_not_drawing (q : list Track) (i : Z) :
  select_at q i <> StillDrawing.
Proof. unfold select_at. destruct (at_index q i); discriminate. Qed.

Lemma nextTrack_selection_drawing (draws : list Q) (s : AudioState) :
  nextTrack_selection draws s = StillDrawing <->
  shuffle s = true /\ repeatMode s <> "one" /\ 1 < len (queue s) /\
  Forall (fun r => random_index r (len (queue s)) = currentQueueIndex s) draws.
Proof.
  unfold nextTrack_selection. cbv zeta.
  pose proof (len_nonneg (queue s)) as Hnn.
  destruct (len (queue s) =? 0) eqn:E0.
  { apply Z.eqb_eq in E0. split; [discriminate | intros [_ [_ [H _]]]; lia]. }
  destruct (repeatMode s =? "one")%string eqn:E1.
  { apply String.eqb_eq in E1. split.
    - intro H. exfalso. exact (select_at_not_drawing _ _ H).
    - intros [_ [H _]]. contradiction. }
  apply String.eqb_neq in E1.
  destruct (shuffle s) eqn:E2.
  - destruct (len (queue s) >? 1) eqn:E3.
    + apply Z.gtb_lt in E3.
      destruct (shuffle_pick draws (len (queue s)) (currentQueueIndex s))
        as [i |] eqn:E4.
      * split.
        -- intro H. exfalso. exact (select_at_not_drawing _ _ H).
        -- intros [_ [_ [_ H]]]. apply shuffle_pick_none in H. congruence.
      * apply shuffle_pick_none in E4. split; intros _; auto.
    + rewrite Z.gtb_ltb in E3. apply Z.ltb_ge in E3. split.
      * intro H. exfalso. exact (select_at_not_drawing _ _ H).
      * intros [_ [_ [H _]]]. lia.
  - split; [| intros [H _]; discriminate].
    intro H. exfalso.
    destruct (currentQueueIndex s + 1 >=? len (queue s));
      [destruct (repeatMode s =? "all")%string |];
      try discriminate H; exact (select_at_not_drawing _ _ H).
Qed.

Lemma store_invariant_run_local
  (JSON_parse : string -> option json) (Number_toString : Q -> string)
  (c : LocalCommand) (s s' : AudioState) :
  run_local JSON_parse Number_toString c s = Some s' ->
  store_invariant s -> store_invariant s'.
Proof.
  destruct c; simpl; intros Hrun Hinv;
    try (injection Hrun as <-).
  - apply store_invariant_playTrack. exact Hinv.
  - revert Hinv. apply store_invariant_same_queue; destruct s; reflexivity.
  - revert Hinv. apply store_invariant_same_queue; destruct s; reflexivity.
  - apply store_invariant_toggle. exact Hinv.
  - apply (store_invariant_next ApiMissing draws s); assumption.
  - apply store_invariant_previous. exact Hinv.
  - apply store_invariant_add. exact Hinv.
  - apply store_invariant_remove. exact Hinv.
  - split; [destruct s; reflexivity | destruct s; constructor].
  - revert Hinv. apply store_invariant_same_queue; destruct s; reflexivity.
  - revert Hinv. apply store_invariant_same_queue; destruct s; reflexivity.
  - revert Hinv. apply store_invariant_same_queue; destruct s; reflexivity.
  - revert Hinv. apply store_invariant_same_queue; destruct s; reflexivity.
  - exact Hinv.
  - exact Hinv.
  - revert Hinv. unfold deletePlaylist.
    destruct playlistId as [pid |]; [| auto].
    destruct (pid =? "")%string; [auto |].
    apply store_invariant_same_queue; destruct s; reflexivity.
  - revert Hinv. apply store_invariant_same_queue; destruct s; reflexivity.
  - unfold handlePlaySelected. destruct selectedList as [| first rest];
      [exact Hinv |].
    apply store_invariant_playTrack_then; [| exact Hinv].
    intros s0 H0. apply store_invariant_addAll. exact H0.
  - unfold handlePlayPlaylist.
    destruct (tracksToPlay (library s) (tracks playlist)) as [| first rest];
      [exact Hinv |].
    apply store_invariant_playTrack_then; [| exact Hinv].
    intros s0 H0. apply store_invariant_addAll. exact H0.
  - apply (store_invariant_settings s);
      [apply handleEventMessage_settings | exact Hinv].
  - revert Hinv. apply store_invariant_same_queue;
      unfold timer_armed; destruct s, isPlaying0, currentTrack0; simpl;
      try reflexivity;
      match goal with
      | |- context [if ?c then _ else _] => destruct c
      end; reflexivity.
Qed.

Lemma store_invariant_run_locals
  (JSON_parse : string -> option json) (Number_toString : Q -> string)
  (cs : list LocalCommand) :
  forall (s0 s1 : AudioState),
    run_locals JSON_parse Number_toString cs s0 = Some s1 ->
    store_invariant s0 -> store_invariant s1.
Proof.
  induction cs as [| c later IH]; intros s0 s1 H H0; simpl in H.
  - injection H as <-. exact H0.
  - destruct (run_local JSON_parse Number_toString c s0) as [mid |] eqn:E;
      [| discriminate].
    apply (IH mid s1 H).
    apply (store_invariant_run_local JSON_parse Number_toString c s0 mid E H0).
Qed.

Lemma run_locals_stuck
  (JSON_parse : string -> option json) (Number_toString : Q -> string)
  (cs : list LocalCommand) :
  forall (s0 : AudioState),
    run_locals JSON_parse Number_toString cs s0 = None ->
    exists before draws after s,
      cs = (before ++ LocalNext draws :: after)%list /\
      run_locals JSON_parse Number_toString before s0 = Some s /\
      nextTrack_selection draws s = StillDrawing.
Proof.
  induction cs as [| c later IH]; intros s0 H; simpl in H; [discriminate |].
  destruct (run_local JSON_parse Number_toString c s0) as [mid |] eqn:E.
  - destruct (IH mid H) as [before [draws [after [s [Hcs [Hrun Hsel]]]]]].
    exists (c :: before), draws, after, s.
    split; [rewrite Hcs; reflexivity |].
    split; [simpl; rewrite E; exact Hrun | exact Hsel].
  - destruct c; simpl in E; try discriminate E.
    exists [], draws, later, s0.
    split; [reflexivity |]. split; [reflexivity |].
    unfold nextTrack in E.
    destruct (nextTrack_selection draws s0); [reflexivity | |]; discriminate E.
Qed.

(** X24: without the Electron bridge every run keeps the queue well
    formed. In a window without [window.electronAPI] no dispatch follows
    an [await], so user actions, socket messages and timer firings take
    effect one after the other; starting from the initial store, after any
    sequence of them
    (play, pause, resume, skip either way, add, remove, clear, repeat and
    shuffle changes, volume changes, library loads and scans, playlist
    edits, play selected, play playlist) the cursor is -1 on an empty queue
    and a valid index otherwise, and no two queued tracks share an
    identity. The only way such a run has no final store is a press of next
    whose shuffle loop keeps drawing the cursor, reached on a well-formed
    queue of more than one track with shuffle on and repeat mode not one. *)
Theorem bridgeless_runs_keep_queue_well_formed :
  forall (JSON_parse : string -> option json) (Number_toString : Q -> string)
         (commands : list LocalCommand),
    (forall s,
        run_locals JSON_parse Number_toString commands initialState = Some s ->
        queue_invariant s /\ distinct_ids (queue s)) /\
    (run_locals JSON_parse Number_toString commands initialState = None ->
     exists before draws after s,
       commands = (before ++ LocalNext draws :: after)%list /\
       run_locals JSON_parse Number_toString before initialState = Some s /\
       queue_invariant s /\ distinct_ids (queue s) /\
       shuffle s = true /\ repeatMode s <> "one" /\ 1 < len (queue s) /\
       Forall (fun r => random_index r (len (queue s)) = currentQueueIndex s)
              draws).
Proof.
  intros parse nts commands.
  assert (Hinit : store_invariant initialState)
    by (split; [reflexivity | constructor]).
  split.
  - intros s Hrun.
    apply (store_invariant_run_locals parse nts commands initialState s Hrun Hinit).
  - intro Hstuck.
    destruct (run_locals_stuck parse nts commands initialState Hstuck)
      as [before [draws [after [s [Hcs [Hrun Hsel]]]]]].
    exists before, draws, after, s.
    split; [exact Hcs |]. split; [exact Hrun |].
    destruct (store_invariant_run_locals parse nts before initialState s
                Hrun Hinit) as [Hc Hd].
    split; [exact Hc |]. split; [exact Hd |].
    apply nextTrack_selection_drawing. exact Hsel.
Qed.

Lemma bridgeless_runs_keep_queue_well_formed_witness :
  match run_locals sample_parse_events sample_number_text
          [LocalPlaySelected [trackA; trackB];
           LocalAddToQueue (Some trackC);
           LocalSocketMessage heartbeat_text;
           LocalNext [];
           LocalRemoveFromQueue 0;
           LocalTick] initialState with
  | Some s => queue_invariant s /\ distinct_ids (queue s)
  | None => False
  end.
Proof.
  destruct (run_locals sample_parse_events sample_number_text
              [LocalPlaySelected [trackA; trackB];
               LocalAddToQueue (Some trackC);
               LocalSocketMessage heartbeat_text;
               LocalNext [];
               LocalRemoveFromQueue 0;
               LocalTick] initialState) as [s |] eqn:E.
  - exact (proj1 (bridgeless_runs_keep_queue_well_formed sample_parse_events
                    sample_number_text _) s E).
  - vm_compute in E. discriminate E.
Defined.

(** ** Time formatting *)

Lemma Qfloor_unique (x : Q) (n : Z) :
  (inject_Z n <= x)%Q -> (x < inject_Z (n + 1))%Q -> Qfloor x = n.
Proof.
  intros Hlo Hhi.
  assert (H1 : n <= Qfloor x).
  { rewrite <- (Qfloor_Z n). apply Qfloor_resp_le. exact Hlo. }
  assert (H2 : Qfloor x < n + 1).
  { rewrite Zlt_Qlt. apply Qle_lt_trans with (y := x);
      [apply Qfloor_le | exact Hhi]. }
  lia.
Qed.

Lemma Qfloor_div_pos (x : Q) (k : Z) :
  0 < k -> Qfloor (x / inject_Z k) = Qfloor x / k.
Proof.
  intro Hk.
  assert (Hk' : (0 < inject_Z k)%Q)
    by (change 0%Q with (inject_Z 0); rewrite <- Zlt_Qlt; exact Hk).
  pose proof (Qfloor_le x) as Hlo. pose proof (Qlt_floor x) as Hhi.
  set (f := Qfloor x) in *.
  pose proof (Z.mul_div_le f k Hk) as Hdown.
  pose proof (Z.mul_succ_div_gt f k Hk) as Hup.
  apply Qfloor_unique.
  - apply Qle_shift_div_l; [exact Hk' |].
    rewrite <- inject_Z_mult.
    apply Qle_trans with (y := inject_Z f); [| exact Hlo].
    rewrite <- Zle_Qle. lia.
  - apply Qlt_shift_div_r; [exact Hk' |].
    rewrite <- inject_Z_mult.
    apply Qlt_le_trans with (y := inject_Z (f + 1)); [exact Hhi |].
    rewrite <- Zle_Qle. unfold Z.succ in Hup. lia.
Qed.

Lemma Qfloor_minus_Z (x : Q) (j : Z) :
  Qfloor (x - inject_Z j) = Qfloor x - j.
Proof.
  pose proof (Qfloor_le x) as Hlo. pose proof (Qlt_floor x) as Hhi.
  apply Qfloor_unique.
  - unfold Z.sub. rewrite inject_Z_plus, inject_Z_opp. lra.
  - replace (Qfloor x - j + 1) with (Qfloor x + 1 + - j) by lia.
    rewrite inject_Z_plus, inject_Z_opp. lra.
Qed.

Lemma js_remainder_floor (x : Q) (k : Z) :
  (0 <= x)%Q -> 0 < k ->
  Qfloor (js_remainder x (inject_Z k)) = Qfloor x mod k /\
  (0 <= js_remainder x (inject_Z k))%Q.
Proof.
  intros Hx Hk.
  assert (Hk' : (0 < inject_Z k)%Q)
    by (change 0%Q with (inject_Z 0); rewrite <- Zlt_Qlt; exact Hk).
  assert (Hq : (0 <= x / inject_Z k)%Q).
  { apply Qle_shift_div_l; [exact Hk' | lra]. }
  unfold js_remainder, js_trunc.
  replace (Qle_bool 0 (x / inject_Z k)) with true
    by (symmetry; apply Qle_bool_iff; exact Hq).
  rewrite (Qfloor_div_pos x k Hk).
  rewrite <- inject_Z_mult. split.
  - rewrite Qfloor_minus_Z. rewrite Z.mod_eq by lia. lia.
  - pose proof (Qfloor_le x) as Hlo.
    pose proof (Z.mul_div_le (Qfloor x) k Hk) as Hdown.
    assert (Hle : (inject_Z (Qfloor x / k * k) <= inject_Z (Qfloor x))%Q)
      by (rewrite <- Zle_Qle; lia).
    lra.
Qed.

Lemma padStart2_two_digits (r : Z) :
  0 <= r < 60 -> String.length (padStart2 (decimal r)) = 2%nat.
Proof.
  intro Hr.
  assert (Hn : exists n, (n < 60)%nat /\ r = Z.of_nat n)
    by (exists (Z.to_nat r); lia).
  destruct Hn as [n [Hlt ->]]. clear Hr.
  do 60 (destruct n as [| n]; [vm_compute; reflexivity |]).
  lia.
Qed.

(** X25: the time shown by the playback bar, the player, the queue panel
    and the library page depends only on the whole seconds: for a positive
    number of seconds below 2^53 it is the minutes (whole seconds divided
    by 60), a colon, and the seconds within the minute written with exactly
    two characters; and it reads 0:00 for zero and for a missing value. *)
Theorem formatTime_minutes_and_seconds :
  forall (seconds : Q),
    formatTime None = "0:00" /\
    ((seconds == 0)%Q -> formatTime (Some seconds) = "0:00") /\
    ((0 < seconds)%Q -> (seconds < inject_Z (2 ^ 53))%Q ->
     formatTime (Some seconds) =
       decimal (Qfloor seconds / 60) ++ ":" ++
       padStart2 (decimal (Qfloor seconds mod 60)) /\
     String.length (padStart2 (decimal (Qfloor seconds mod 60))) = 2%nat /\
     60 * (Qfloor seconds / 60) + Qfloor seconds mod 60 = Qfloor seconds).
Proof.
  intro seconds. split; [reflexivity |]. split.
  - intro Hz. unfold formatTime.
    replace (Qeq_bool seconds 0) with true
      by (symmetry; apply Qeq_bool_iff; exact Hz).
    reflexivity.
  - intros Hpos _. unfold formatTime.
    replace (Qeq_bool seconds 0) with false.
    2:{ symmetry. destruct (Qeq_bool seconds 0) eqn:E; [| reflexivity].
        apply Qeq_bool_iff in E. lra. }
    cbv zeta.
    change 60%Q with (inject_Z 60).
    rewrite (Qfloor_div_pos seconds 60) by lia.
    destruct (js_remainder_floor seconds 60) as [Hrem _]; [lra | lia |].
    rewrite Hrem.
    split; [reflexivity |]. split.
    + apply padStart2_two_digits. apply Z.mod_pos_bound. lia.
    + rewrite (Z.div_mod (Qfloor seconds) 60) at 3 by lia. reflexivity.
Qed.

Lemma formatTime_minutes_and_seconds_witness :
  formatTime (Some (2507 # 10)) = "4:10".
Proof.
  destruct (formatTime_minutes_and_seconds (2507 # 10)) as [_ [_ Hpos]].
  destruct Hpos as [Htext _]; [reflexivity | vm_compute; reflexivity |].
  rewrite Htext. vm_compute. reflexivity.
Defined.

(** X26: the total duration shown on the playlists page splits the whole
    seconds into hours, minutes and seconds that add up again: for a total
    that is not negative and below 2^53 the minutes and the seconds are both between 0 and
    59, 3600 times the hours plus 60 times the minutes plus the seconds is
    the whole number of seconds, and the hours are written only when there
    is at least one, the minutes then taking two characters as the seconds
    always do. *)
Theorem playlist_duration_text_splits_total :
  forall (totalSeconds : Q),
    (0 <= totalSeconds)%Q -> (totalSeconds < inject_Z (2 ^ 53))%Q ->
    let whole := Qfloor totalSeconds in
    let hours := whole / 3600 in
    let minutes := (whole mod 3600) / 60 in
    let seconds := whole mod 60 in
    Playlists_formatDuration totalSeconds =
      (if hours >? 0
       then decimal hours ++ ":" ++ padStart2 (decimal minutes)
                          ++ ":" ++ padStart2 (decimal seconds)
       else decimal minutes ++ ":" ++ padStart2 (decimal seconds)) /\
    3600 * hours + 60 * minutes + seconds = whole /\
    0 <= hours /\ 0 <= minutes < 60 /\ 0 <= seconds < 60 /\
    String.length (padStart2 (decimal minutes)) = 2%nat /\
    String.length (padStart2 (decimal seconds)) = 2%nat.
Proof.
  intros totalSeconds Hpos _ whole hours minutes seconds.
  assert (Hwhole : 0 <= whole).
  { unfold whole. rewrite <- (Qfloor_Z 0). apply Qfloor_resp_le. exact Hpos. }
  assert (Hm : 0 <= minutes < 60).
  { unfold minutes. pose proof (Z.mod_pos_bound whole 3600).
    split; [apply Z.div_pos; lia | apply Z.div_lt_upper_bound; lia]. }
  assert (Hs : 0 <= seconds < 60) by (apply Z.mod_pos_bound; lia).
  repeat apply conj; try apply Hm; try apply Hs.
  - unfold Playlists_formatDuration. cbv zeta.
    change 3600%Q with (inject_Z 3600). change 60%Q with (inject_Z 60).
    rewrite (Qfloor_div_pos totalSeconds 3600) by lia.
    destruct (js_remainder_floor totalSeconds 3600) as [Hrem3600 Hnn];
      [exact Hpos | lia |].
    destruct (js_remainder_floor totalSeconds 60) as [Hrem60 _];
      [exact Hpos | lia |].
    rewrite (Qfloor_div_pos (js_remainder totalSeconds (inject_Z 3600)) 60)
      by lia.
    rewrite Hrem3600, Hrem60. reflexivity.
  - unfold hours, minutes, seconds.
    pose proof (Z.div_mod whole 3600).
    pose proof (Z.div_mod (whole mod 3600) 60).
    assert (Hmm : (whole mod 3600) mod 60 = whole mod 60).
    { replace 3600 with (60 * 60) by reflexivity.
      rewrite Z.rem_mul_r by lia.
      rewrite (Z.mul_comm 60 ((whole / 60) mod 60)).
      rewrite Z.mod_add by lia.
      apply Z.mod_mod. lia. }
    lia.
  - apply Z.div_pos; lia.
  - apply padStart2_two_digits. exact Hm.
  - apply padStart2_two_digits. exact Hs.
Qed.

Lemma playlist_duration_text_splits_total_witness :
  Playlists_formatDuration (3725 # 1) = "1:02:05" /\
  Playlists_formatDuration (125 # 1) = "2:05".
Proof.
  split.
  - destruct (playlist_duration_text_splits_total (3725 # 1)) as [Htext _];
      [vm_compute; discriminate | vm_compute; reflexivity |].
    rewrite Htext. vm_compute. reflexivity.
  - destruct (playlist_duration_text_splits_total (125 # 1)) as [Htext _];
      [vm_compute; discriminate | vm_compute; reflexivity |].
    rewrite Htext. vm_compute. reflexivity.
Defined.

(** ** Outcomes of a skip *)

(** X27: whatever the modes and the draws, a press of next or previous has
    one of three outcomes: nothing changes at all; the bridge call rejected
    and only the error field changed, cursor and current track staying as
    they were; or the bridge call went through and the store now plays,
    from progress 0, exactly the queue entry under the new cursor. Previous
    always comes back with one of them, and so does next, except while its
    shuffle loop keeps drawing the cursor: that happens only with shuffle
    on, a repeat mode other than one, more than one queued track and every
    draw landing on the cursor. *)
Theorem skip_outcomes :
  forall (api : ElectronCall) (draws : list Q) (s : AudioState),
    (nextTrack api draws s = None <->
     shuffle s = true /\ repeatMode s <> "one" /\ 1 < len (queue s) /\
     Forall (fun r => random_index r (len (queue s)) = currentQueueIndex s)
            draws) /\
    (shuffle s = false \/ repeatMode s = "one" \/ len (queue s) <= 1 \/
     Exists (fun r => random_index r (len (queue s)) <> currentQueueIndex s)
            draws ->
     exists s', nextTrack api draws s = Some s') /\
    (forall s', nextTrack api draws s = Some s' ->
       s' = s \/
       (exists message, api = ApiRejected message /\
                        s' = with_error (Some message) s) \/
       (accepted api = true /\ queue s' = queue s /\
        isPlaying s' = true /\ progress s' = 0%Q /\
        exists t, currentTrack s' = Some t /\
                  at_index (queue s') (currentQueueIndex s') = Some t)) /\
    (previousTrack api s = s \/
     (exists message, api = ApiRejected message /\
                      previousTrack api s = with_error (Some message) s) \/
     (accepted api = true /\ queue (previousTrack api s) = queue s /\
      isPlaying (previousTrack api s) = true /\
      progress (previousTrack api s) = 0%Q /\
      exists t, currentTrack (previousTrack api s) = Some t /\
                at_index (queue (previousTrack api s))
                         (currentQueueIndex (previousTrack api s)) = Some t)).
Proof.
  intros api draws s.
  assert (Hnone : nextTrack api draws s = None <->
                  nextTrack_selection draws s = StillDrawing).
  { unfold nextTrack. destruct (nextTrack_selection draws s);
      split; intro H; try reflexivity; discriminate H. }
  assert (Hstart : forall i t,
             at_index (queue s) i = Some t ->
             (exists message, api = ApiRejected message /\
                start_selected api i t s = with_error (Some message) s) \/
             (accepted api = true /\
              queue (start_selected api i t s) = queue s /\
              isPlaying (start_selected api i t s) = true /\
              progress (start_selected api i t s) = 0%Q /\
              exists t', currentTrack (start_selected api i t s) = Some t' /\
                at_index (queue (start_selected api i t s))
                         (currentQueueIndex (start_selected api i t s))
                = Some t')).
  { intros i t Hat. destruct api as [| | message].
    - right. destruct s; simpl in *. repeat split. exists t. split; auto.
    - right. destruct s; simpl in *. repeat split. exists t. split; auto.
    - left. exists message. split; reflexivity. }
  split; [| split; [| split]].
  - rewrite Hnone. apply nextTrack_selection_drawing.
  - intro Hleaves.
    destruct (nextTrack api draws s) as [s' |] eqn:E; [exists s'; reflexivity |].
    exfalso. pose proof (proj1 Hnone eq_refl) as Hdraw.
    apply nextTrack_selection_drawing in Hdraw.
    destruct Hdraw as [Hsh [Hone [Hlen Hall]]].
    destruct Hleaves as [H | [H | [H | H]]]; try congruence; try lia.
    apply Exists_exists in H. destruct H as [r [Hin Hr]].
    rewrite Forall_forall in Hall. apply Hr. apply Hall. exact Hin.
  - intros s' Hnext. unfold nextTrack in Hnext.
    destruct (nextTrack_selection draws s) as [| | i t] eqn:E;
      try discriminate; injection Hnext as <-; [left; reflexivity |].
    right. apply nextTrack_selection_sound in E.
    destruct (Hstart i t E) as [[message [Hm Hs]] | H].
    + left. exists message. split; assumption.
    + right. exact H.
  - unfold previousTrack.
    destruct (previousTrack_selection s) as [| | i t] eqn:E;
      try (left; reflexivity).
    right. apply previousTrack_selection_sound in E.
    destruct (Hstart i t E) as [[message [Hm Hs]] | H].
    + left. exists message. split; assumption.
    + right. exact H.
Qed.

Lemma skip_outcomes_witness :
  nextTrack (ApiRejected "offline") []
    (with_currentQueueIndex 0 (with_queue [trackA; trackB] initialState))
  = Some (with_error (Some "offline")
            (with_currentQueueIndex 0 (with_queue [trackA; trackB] initialState))).
Proof.
  destruct (skip_outcomes (ApiRejected "offline") []
              (with_currentQueueIndex 0 (with_queue [trackA; trackB] initialState)))
    as [_ [Hreturns [Hnext _]]].
  destruct Hreturns as [s' Hs']; [left; reflexivity |].
  destruct (Hnext s' Hs') as [H | [[message [Hm Hs]] | [Hacc _]]].
  - reflexivity.
  - reflexivity.
  - discriminate Hacc.
Defined.

(** ** Playing a playlist *)

(** X28: the tracks a playlist is played from are library tracks whose ids
    the playlist lists, at most one per listed id; ids unknown to the
    library are skipped, and a playlist none of whose ids is in the library
    (an empty playlist included) leaves the store untouched. *)
Theorem play_playlist_uses_library_tracks :
  forall (api : ElectronCall) (playlist : Playlist) (s : AudioState),
    (forall t, In t (tracksToPlay (library s) (tracks playlist)) ->
               In t (library s) /\ In (id t) (tracks playlist)) /\
    (List.length (tracksToPlay (library s) (tracks playlist))
     <= List.length (tracks playlist))%nat /\
    ((forall wanted, In wanted (tracks playlist) ->
                     forall t, In t (library s) -> id t <> wanted) ->
     handlePlayPlaylist api playlist s = s).
Proof.
  intros api playlist s. repeat apply conj.
  - intros t Hin. unfold tracksToPlay in Hin.
    apply in_flat_map in Hin. destruct Hin as [wanted [Hw Ht]].
    destruct (find (fun t0 => (id t0 =? wanted)%string) (library s))
      as [found |] eqn:F; [| destruct Ht].
    destruct Ht as [<- | []].
    apply find_some in F. destruct F as [Hlib Hid].
    apply String.eqb_eq in Hid. rewrite Hid. split; assumption.
  - unfold tracksToPlay. induction (tracks playlist) as [| wanted more IH].
    + simpl. lia.
    + simpl. rewrite length_app.
      destruct (find (fun t0 => (id t0 =? wanted)%string) (library s));
        simpl; lia.
  - intro Hunknown. unfold handlePlayPlaylist.
    replace (tracksToPlay (library s) (tracks playlist)) with (@nil Track);
      [reflexivity |].
    symmetry. unfold tracksToPlay.
    induction (tracks playlist) as [| wanted more IH]; [reflexivity |].
    simpl.
    destruct (find (fun t0 => (id t0 =? wanted)%string) (library s))
      as [found |] eqn:F.
    + apply find_some in F. destruct F as [Hlib Hid].
      apply String.eqb_eq in Hid.
      exfalso. apply (Hunknown wanted (or_introl eq_refl) found Hlib Hid).
    + simpl. apply IH. intros w Hw. apply Hunknown. right. exact Hw.
Qed.

Lemma play_playlist_uses_library_tracks_witness :
  handlePlayPlaylist ApiResolved
    (mkPlaylist "p" "Ghosts" "" 2 ["x"; "y"] false)
    (with_library [trackA; trackB] initialState)
  = with_library [trackA; trackB] initialState.
Proof.
  destruct (play_playlist_uses_library_tracks ApiResolved
              (mkPlaylist "p" "Ghosts" "" 2 ["x"; "y"] false)
              (with_library [trackA; trackB] initialState))
    as [_ [_ Hnone]].
  apply Hnone. intros wanted Hw t Ht.
  simpl in Hw, Ht.
  destruct Hw as [<- | [<- | []]]; destruct Ht as [<- | [<- | []]];
    discriminate.
Defined.
